(** * cloud-pods: vote registration, visibility filtering and feed projection

    A shallow embedding of the moderation core of the [Home] component
    (pages/index.tsx): the three vote handlers, [filterPosts], the
    subscription callback that maintains the local [posts] array, the
    render-time sort, and [handlePost].

    JavaScript objects used as maps ([{ [key: string]: boolean }]) are
    [gmap string bool] holding their own properties; a property read that
    finds no own property goes on to [Object.prototype].  Strings are
    [string], read one character per code unit. *)

From Stdlib Require Import ZArith Sorting.Sorted.
From stdpp Require Import gmap strings list fin_maps.

Local Open Scope Z_scope.

(** ** Data model *)

(** [{ [key: string]: boolean }] *)
Abbreviation Votes := (gmap string bool).

(** [interface PostData] *)
Record PostData := mkPostData {
  id : string;
  text : string;
  createdAt : Z;
  user : option string;
  likes : option Votes;
  reports : option Votes;
  governanceVotes : option Votes;
}.

Definition LIKE_THRESHOLD : Z := 1.
Definition REPORT_THRESHOLD : Z := 3.
Definition GOVERNANCE_THRESHOLD : Z := 2.

(** [o ? Object.keys(o).length : 0]: an absent object counts 0, a present
    one (empty or not) counts its own keys, whatever booleans they hold. *)
Definition keys_length (o : option Votes) : Z :=
  match o with
  | Some m => Z.of_nat (size m)
  | None => 0
  end.

(** The predicate passed to [posts.filter] in [filterPosts]. *)
Definition eligible (post : PostData) : bool :=
  let reportCount := keys_length (reports post) in
  let governanceCount := keys_length (governanceVotes post) in
  (reportCount <? REPORT_THRESHOLD) && (governanceCount <? GOVERNANCE_THRESHOLD).

(** The vote set of a field: the identities that are keys of the object. *)
Definition vote_set (o : option Votes) : gset string :=
  match o with
  | Some m => dom m
  | None => ∅
  end.

Definition filterPosts (posts : list PostData) : list PostData :=
  List.filter eligible posts.


(** ** The store and its payloads *)

(** The value Gun hands to [once] and [on] callbacks ([data: any]).  It
    carries the fields of a post; an own [id] property is possible because
    the payload is untyped, and matters for the spread in the subscription
    callback.  [createdAt] is taken as present, as the interface requires. *)
Record GunData := mkGunData {
  d_id : option string;
  d_text : option string;
  d_createdAt : Z;
  d_user : option string;
  d_likes : option Votes;
  d_reports : option Votes;
  d_governanceVotes : option Votes;
}.

(** The object literal handed to [postRef.put]: only the properties that
    are written are [Some]. *)
Record Patch := mkPatch {
  p_text : option string;
  p_createdAt : option Z;
  p_user : option string;
  p_likes : option Votes;
  p_reports : option Votes;
  p_governanceVotes : option Votes;
}.

Definition no_patch : Patch := mkPatch None None None None None None.

(** [{ likes }], [{ reports }], [{ governanceVotes: votes }] *)
Definition patch_likes (likes : Votes) : Patch :=
  mkPatch None None None (Some likes) None None.
Definition patch_reports (reports : Votes) : Patch :=
  mkPatch None None None None (Some reports) None.
Definition patch_governanceVotes (votes : Votes) : Patch :=
  mkPatch None None None None None (Some votes).

(** Modelled from the spec: the PostStore boundary [set(key, partialFields)]
    (Gun's [put]) is a field-level merge: a written field replaces the
    stored one, every other field of the record is kept.  The handlers
    write only to a record they have just read, so [store_put] below acts
    on existing records. *)
Definition merge_patch (p : Patch) (d : GunData) : GunData :=
  {| d_id := d_id d;
     d_text := from_option Some (d_text d) (p_text p);
     d_createdAt := default (d_createdAt d) (p_createdAt p);
     d_user := from_option Some (d_user d) (p_user p);
     d_likes := from_option Some (d_likes d) (p_likes p);
     d_reports := from_option Some (d_reports d) (p_reports p);
     d_governanceVotes :=
       from_option Some (d_governanceVotes d) (p_governanceVotes p) |}.

(** The [posts] node of the graph: record key to record. *)
Abbreviation Store := (gmap string GunData).

Definition store_put (postId : string) (p : Patch) (σ : Store) : Store :=
  alter (merge_patch p) postId σ.

(** ** Effects of a handler *)

Inductive ToastLevel := warn | info | success | error.

Inductive Effect :=
| toast (lvl : ToastLevel) (msg : string)
| gun_once (postId : string)
| gun_put (postId : string) (patch : Patch)
| gun_set (post : GunData)
| setInput (value : string)
| console_log_minted (createdAt : Z).

Inductive JsError := TypeError.

Inductive Completion (A : Type) :=
| Normal (a : A)
| Throw (e : JsError).
Arguments Normal {A} a.
Arguments Throw {A} e.

Record World := mkWorld {
  gun_posts : Store;
  trace : list Effect;
}.

(** A handler run: it may read and write the store, appends to the trace of
    what it did, and ends normally or with an uncaught exception. *)
Definition M (A : Type) : Type := World → Completion A * World.

Definition ret {A} (a : A) : M A := λ w, (Normal a, w).

Definition bind {A B} (m : M A) (k : A → M B) : M B :=
  λ w, match m w with
       | (Normal a, w') => k a w'
       | (Throw e, w') => (Throw e, w')
       end.

Notation "x ←← m ; k" := (bind m (λ x, k))
  (at level 20, m at level 100, k at level 200, right associativity,
   only parsing).
Notation "m ;;; k" := (bind m (λ _, k))
  (at level 100, k at level 200, right associativity, only parsing).

Definition throw {A} (e : JsError) : M A := λ w, (Throw e, w).

Definition emit (e : Effect) : M unit :=
  λ w, (Normal tt, mkWorld (gun_posts w) (trace w ++ [e])).

(** [postRef.once(cb)]: the callback receives the record, or [undefined]
    when the node holds nothing. *)
Definition once (postId : string) : M (option GunData) :=
  λ w, (Normal (gun_posts w !! postId),
        mkWorld (gun_posts w) (trace w ++ [gun_once postId])).

Definition put (postId : string) (p : Patch) : M unit :=
  λ w, (Normal tt,
        mkWorld (store_put postId p (gun_posts w))
                (trace w ++ [gun_put postId p])).

(** [data.f] for [data: any]: reading a property of [undefined] throws. *)
Definition prop {B} (data : option GunData) (f : GunData → B) : M B :=
  match data with
  | Some d => ret (f d)
  | None => throw TypeError
  end.

(** The property names every plain object inherits from
    [Object.prototype]; what they hold (functions, and the prototype object
    for [__proto__]) is truthy. *)
Definition Object_prototype_keys : list string :=
  ["constructor"; "hasOwnProperty"; "isPrototypeOf"; "propertyIsEnumerable";
   "toLocaleString"; "toString"; "valueOf"; "__proto__";
   "__defineGetter__"; "__defineSetter__"; "__lookupGetter__";
   "__lookupSetter__"].

Definition inherited (k : string) : bool :=
  bool_decide (k ∈ Object_prototype_keys).

(** Truthiness of [votes[currentUser]]: an own property decides by the
    boolean it holds; without one the read reaches [Object.prototype]. *)
Definition truthy (votes : Votes) (k : string) : bool :=
  match votes !! k with
  | Some b => b
  | None => inherited k
  end.

(** [if (ack.err)] for [ack: { err?: string }] *)
Definition err_truthy (err : option string) : bool :=
  match err with
  | Some e => negb (bool_decide (e = ""))
  | None => false
  end.

(** ** Session state read by the handlers *)

Record Session := mkSession {
  loggedIn : bool;              (* the React state flag *)
  gunUser_is : option string;   (* [gunUser.is.alias] when [gunUser.is] is set *)
}.

(** [gunUser.is && gunUser.is.alias], [None] when the value is falsy. *)
Definition currentUser (s : Session) : option string :=
  match gunUser_is s with
  | Some a => if bool_decide (a = "") then None else Some a
  | None => None
  end.

(** ** VoteAggregator: the three vote handlers *)

Definition handleLike (s : Session) (postId : string) : M unit :=
  if negb (loggedIn s) then emit (toast warn "ログインしてください。")
  else
    match currentUser s with
    | None => ret tt
    | Some currentUser =>
        data ←← once postId;
        likes0 ←← prop data d_likes;
        let likes := default ∅ likes0 in
        if negb (truthy likes currentUser) then
          put postId (patch_likes (<[currentUser := true]> likes))
        else emit (toast info "既にいいね済みです。")
    end.

Definition handleReport (s : Session) (postId : string) : M unit :=
  if negb (loggedIn s) then emit (toast warn "ログインしてください。")
  else
    match currentUser s with
    | None => ret tt
    | Some currentUser =>
        data ←← once postId;
        reports0 ←← prop data d_reports;
        let reports := default ∅ reports0 in
        if negb (truthy reports currentUser) then
          (put postId (patch_reports (<[currentUser := true]> reports)) ;;;
           emit (toast success "通報しました。"))
        else emit (toast info "既に通報済みです。")
    end.

Definition handleGovernanceVote (s : Session) (postId : string) : M unit :=
  if negb (loggedIn s) then emit (toast warn "ログインしてください。")
  else
    match currentUser s with
    | None => ret tt
    | Some currentUser =>
        data ←← once postId;
        votes0 ←← prop data d_governanceVotes;
        let votes := default ∅ votes0 in
        if negb (truthy votes currentUser) then
          (put postId (patch_governanceVotes (<[currentUser := true]> votes)) ;;;
           emit (toast success "ガバナンス投票を完了しました。"))
        else emit (toast info "既に投票済みです。")
    end.

(** The three vote classes, and the handler of each. *)
Inductive VoteClass := like | report | governance.

#[global] Instance VoteClass_eq_dec : EqDecision VoteClass.
Proof. solve_decision. Defined.

Definition castVote (c : VoteClass) : Session → string → M unit :=
  match c with
  | like => handleLike
  | report => handleReport
  | governance => handleGovernanceVote
  end.

(** The vote field of a class, in a record and in a written object. *)
Definition votes_of (c : VoteClass) (d : GunData) : option Votes :=
  match c with
  | like => d_likes d
  | report => d_reports d
  | governance => d_governanceVotes d
  end.

Definition patch_of (c : VoteClass) (votes : Votes) : Patch :=
  match c with
  | like => patch_likes votes
  | report => patch_reports votes
  | governance => patch_governanceVotes votes
  end.

(** Running a handler on a store, with an empty trace. *)
Definition run {A} (m : M A) (σ : Store) : Completion A * World :=
  m (mkWorld σ []).

Definition store_after {A} (m : M A) (σ : Store) : Store :=
  gun_posts (run m σ).2.

Definition trace_of {A} (m : M A) (σ : Store) : list Effect :=
  trace (run m σ).2.

Definition completion_of {A} (m : M A) (σ : Store) : Completion A :=
  (run m σ).1.

(** A user action: who acts, on which post, with which vote. *)
Record VoteAction := mkVoteAction {
  va_session : Session;
  va_class : VoteClass;
  va_postId : string;
}.

(** Actions are separate UI events: an action that ends with an exception
    does not stop the later ones. *)
Definition apply_action (σ : Store) (a : VoteAction) : Store :=
  store_after (castVote (va_class a) (va_session a) (va_postId a)) σ.

Definition apply_actions (σ : Store) (acts : list VoteAction) : Store :=
  foldl apply_action σ acts.

Definition is_store_access (e : Effect) : bool :=
  match e with
  | gun_once _ | gun_put _ _ | gun_set _ => true
  | _ => false
  end.

Definition is_store_write (e : Effect) : bool :=
  match e with
  | gun_put _ _ | gun_set _ => true
  | _ => false
  end.

(** ** FeedProjector: the subscription callback and the rendered list *)

(** [{ id: key, ...data }]: the spread comes second, so an own [id] of the
    payload wins over [key].  Built only where [data.text] is truthy. *)
Definition spread_post (key : string) (data : GunData) : PostData :=
  {| id := default key (d_id data);
     text := default "" (d_text data);
     createdAt := d_createdAt data;
     user := d_user data;
     likes := d_likes data;
     reports := d_reports data;
     governanceVotes := d_governanceVotes data |}.

(** [data && data.text] *)
Definition has_text (data : option GunData) : bool :=
  match data with
  | Some d =>
      match d_text d with
      | Some t => negb (bool_decide (t = ""))
      | None => false
      end
  | None => false
  end.

(** The callback of [postsRef.map().on], as the function from the previous
    [posts] state to the next. *)
Definition onUpdate (key : string) (data : option GunData)
    (prev : list PostData) : list PostData :=
  match data with
  | Some d =>
      if has_text data then
        match List.find (λ p, bool_decide (id p = key)) prev with
        | Some _ =>
            List.map (λ p, if bool_decide (id p = key)
                           then spread_post key d else p) prev
        | None => prev ++ [spread_post key d]
        end
      else prev
  | None => prev
  end.

Definition apply_events (evs : list (string * option GunData))
    (view : list PostData) : list PostData :=
  foldl (λ v ev, onUpdate ev.1 ev.2 v) view evs.

(** [Array.prototype.sort(compareFn)]: a stable sort; an element goes before
    the first one that does not compare below it. *)
Fixpoint sort_insert {A} (compareFn : A → A → Z) (x : A) (l : list A) : list A :=
  match l with
  | [] => [x]
  | y :: l' =>
      if compareFn x y <=? 0 then x :: y :: l'
      else y :: sort_insert compareFn x l'
  end.

Definition Array_sort {A} (compareFn : A → A → Z) (l : list A) : list A :=
  foldr (sort_insert compareFn) [] l.

(** [filterPosts(posts).sort((a, b) => b.createdAt - a.createdAt)] *)
Definition snapshot (posts : list PostData) : list PostData :=
  Array_sort (λ a b, createdAt b - createdAt a) (filterPosts posts).

(** The order as the specification words it for [snapshot()]: [createdAt]
    descending, ties by identifier ascending. *)
Definition spec_order (a b : PostData) : Prop :=
  createdAt b < createdAt a ∨
  (createdAt a = createdAt b ∧ String.leb (id a) (id b) = true).

(** ** Post submission *)

Section Posting.
(** Library functions the handler calls: [String.prototype.trim],
    [DOMPurify.sanitize], the [<script>] regular expression's [test], and
    the key Gun's [set] picks for a new record. *)
Variable trim : string → string.
Variable DOMPurify_sanitize : string → string.
Variable script_regex_test : string → bool.
Variable new_soul : Store → string.

(** [string | false] is [option string]. *)
Definition validateAndSanitizeInput (text : string) : M (option string) :=
  let MIN_LENGTH := 3 in
  let trimmed := trim text in
  if Z.of_nat (String.length trimmed) <? MIN_LENGTH then
    (emit (toast error "投稿は最低 3 文字以上必要です。") ;;; ret None)
  else
    let sanitized := DOMPurify_sanitize trimmed in
    if script_regex_test sanitized then
      (emit (toast error "不正な入力が含まれています。") ;;; ret None)
    else ret (Some sanitized).

(** The object literal [post] built by [handlePost]. *)
Definition new_post (s : Session) (sanitizedText : string) (now : Z) : GunData :=
  {| d_id := None;
     d_text := Some sanitizedText;
     d_createdAt := now;
     d_user := Some (default "unknown" (currentUser s));
     d_likes := Some ∅;
     d_reports := Some ∅;
     d_governanceVotes := Some ∅ |}.

(** Modelled from the spec: the PostStore boundary [set] stores the record
    under a key of the store's choosing and acknowledges, or acknowledges
    with an error and stores nothing.  An acknowledgement carries an error
    when its [err] is truthy, as the callback reads it. *)
Definition posts_set (post : GunData) (ack_err : option string) : M (option string) :=
  λ w, (Normal ack_err,
        mkWorld (if err_truthy ack_err then gun_posts w
                 else <[new_soul (gun_posts w) := post]> (gun_posts w))
                (trace w ++ [gun_set post])).

(** [input] is the text box state, [now] is [Date.now()], [ack_err] the
    [err] of the store's acknowledgement. *)
Definition handlePost (s : Session) (input : string) (now : Z)
    (ack_err : option string) : M unit :=
  if negb (loggedIn s) then emit (toast warn "ログインしてください。")
  else
    sanitizedText ←← validateAndSanitizeInput input;
    match sanitizedText with
    | None => ret tt
    | Some t =>
        if bool_decide (t = "") then ret tt
        else
          let post := new_post s t now in
          ack ←← posts_set post ack_err;
          emit (setInput "") ;;;
          if err_truthy ack then emit (toast error "投稿に失敗しました。")
          else
            (emit (toast success "投稿完了！") ;;;
             emit (console_log_minted (d_createdAt post)))
    end.
End Posting.

(** ** What the handlers say *)

(** The [toast.info] text of each handler's "already voted" branch. *)
Definition already_voted_msg (c : VoteClass) : string :=
  match c with
  | like => "既にいいね済みです。"
  | report => "既に通報済みです。"
  | governance => "既に投票済みです。"
  end.

(** What follows the [put] in the voting branch: [handleLike] is silent,
    the other two confirm. *)
Definition voted_trace (c : VoteClass) : list Effect :=
  match c with
  | like => []
  | report => [toast success "通報しました。"]
  | governance => [toast success "ガバナンス投票を完了しました。"]
  end.

Definition patch_votes_of (c : VoteClass) (p : Patch) : option Votes :=
  match c with
  | like => p_likes p
  | report => p_reports p
  | governance => p_governanceVotes p
  end.

(** ** Sample data *)

Definition alice : Session := mkSession true (Some "alice").
Definition stale_session : Session := mkSession true None.
Definition visitor : Session := mkSession false None.

Definition hello_record : GunData :=
  mkGunData None (Some "hello") 100 (Some "bob") (Some ∅) (Some ∅) (Some ∅).

Definition hello_store : Store := {[ "p1" := hello_record ]}.

Definition votes_from (voters : list string) : Votes :=
  list_to_map ((λ v, (v, true)) <$> voters).

Definition post_with (reporters governors : list string) : PostData :=
  mkPostData "p" "hello" 100 (Some "bob") (Some ∅)
    (Some (votes_from reporters)) (Some (votes_from governors)).

Definition post_at (key : string) (t : Z) : PostData :=
  mkPostData key "hello" t None None None None.

(** A record's vote sets have only grown from [d] to [d']. *)
Definition grows (d d' : GunData) : Prop :=
  ∀ c, vote_set (votes_of c d) ⊆ vote_set (votes_of c d').

(** A payload that carries an [id] of its own, different from its key. *)
Definition foreign_id_record : GunData :=
  mkGunData (Some "x") (Some "hi") 1 None None None None.

(** Stand-ins for the library functions of [handlePost]. *)
Definition sample_soul (σ : Store) : string := "soul1".
Definition no_script (sanitized : string) : bool := false.

(** A stored post that three users have reported, and later actions on it. *)
Definition reported_record : GunData :=
  mkGunData None (Some "spam") 200 (Some "mallory") (Some ∅)
    (Some (votes_from ["r1"; "r2"; "r3"])) None.

Definition reported_store : Store := {[ "p2" := reported_record ]}.

Definition later_actions : list VoteAction :=
  [mkVoteAction alice like "p2"; mkVoteAction alice governance "p2";
   mkVoteAction visitor report "p2"; mkVoteAction alice report "gone"].

(** ** Who votes, and what a vote does to a record *)

(** The alias a vote handler acts for: it passes [if (!loggedIn)] and
    [if (!currentUser) return]. *)
Definition acting_user (s : Session) : option string :=
  if loggedIn s then currentUser s else None.

(** The record after the callback of [once] has run on it for [u]. *)
Definition cast_on (c : VoteClass) (u : string) (d : GunData) : GunData :=
  let votes := default ∅ (votes_of c d) in
  if truthy votes u then d
  else merge_patch (patch_of c (<[u := true]> votes)) d.

(** The alias a vote of the session can add to a vote object: the acting
    alias, unless it names an inherited property (then [votes[currentUser]]
    is truthy without an own key, and the handler never writes it). *)
Definition adding_user (s : Session) : option string :=
  match acting_user s with
  | Some u => if inherited u then None else Some u
  | None => None
  end.

(** The aliases that acted with class [c] on [postId] in a list of actions
    and can be added. *)
Definition voters (acts : list VoteAction) (postId : string) (c : VoteClass)
    : gset string :=
  list_to_set
    (omap (λ a, if bool_decide (va_postId a = postId ∧ va_class a = c)
                then adding_user (va_session a) else None) acts).

(** ** Sign-up and login *)

(** The [Home] state the two handlers read and set. *)
Record AuthState := mkAuthState {
  st_alias : string;
  st_password : string;
  st_loggedIn : bool;
  st_jwtToken : string;
}.

Inductive AuthEffect :=
| auth_toast (lvl : ToastLevel) (msg : string)
| gunUser_create (alias password : string)
| gunUser_auth (alias password : string).

(** [alias && password] *)
Definition has_credentials (st : AuthState) : bool :=
  negb (bool_decide (st_alias st = "")) &&
  negb (bool_decide (st_password st = "")).

Definition JWT_SECRET : string := "SUPER_SECRET_KEY_FOR_DEMO_ONLY".

(** [ack_err] is the [err] of the acknowledgement [gunUser.create] passes to
    its callback. *)
Definition handleSignUp (st : AuthState) (ack_err : option string)
    : AuthState * list AuthEffect :=
  if has_credentials st then
    (st, [gunUser_create (st_alias st) (st_password st);
          if err_truthy ack_err
          then auth_toast error ("ユーザー作成エラー: " ++ default "" ack_err)
          else auth_toast success "ユーザー作成成功！"])
  else (st, [auth_toast warn "ユーザー名とパスワードを入力してください。"]).

Section Login.
(** [jwt.sign(payload, secret, options)] of the jsonwebtoken library, on the
    alias of the payload, the secret and [expiresIn]. *)
Variable jwt_sign : string → string → string → string.

Definition generateJWT (alias : string) : string :=
  jwt_sign alias JWT_SECRET "1h".

Definition handleLogin (st : AuthState) (ack_err : option string)
    : AuthState * list AuthEffect :=
  if has_credentials st then
    if err_truthy ack_err then
      (st, [gunUser_auth (st_alias st) (st_password st);
            auth_toast error ("ログインエラー: " ++ default "" ack_err)])
    else
      let token := generateJWT (st_alias st) in
      (mkAuthState (st_alias st) (st_password st) true token,
       [gunUser_auth (st_alias st) (st_password st);
        auth_toast success "ログイン成功！"])
  else (st, [auth_toast warn "ユーザー名とパスワードを入力してください。"]).
End Login.

(** ** What a rendered post shows *)

(** The data the JSX of one post displays: its React key, the HTML of the
    paragraph, the author label, the time the date is formatted from, and
    the three counts on the buttons. *)
Record PostCard := mkPostCard {
  card_key : string;
  card_html : string;
  card_author : string;
  card_createdAt : Z;
  card_likeCount : Z;
  card_reportCount : Z;
  card_governanceCount : Z;
}.

(** [post.user || '匿名'] *)
Definition author_label (post : PostData) : string :=
  match user post with
  | Some u => if bool_decide (u = "") then "匿名" else u
  | None => "匿名"
  end.

Definition render_post (post : PostData) : PostCard :=
  let likeCount := keys_length (likes post) in
  let reportCount := keys_length (reports post) in
  let governanceCount := keys_length (governanceVotes post) in
  {| card_key := id post;
     card_html := text post;
     card_author := author_label post;
     card_createdAt := createdAt post;
     card_likeCount := likeCount;
     card_reportCount := reportCount;
     card_governanceCount := governanceCount |}.

(** [filterPosts(posts).sort(...).map(post => ...)] *)
Definition render_feed (posts : list PostData) : list PostCard :=
  List.map render_post (snapshot posts).

(** ** More sample data *)

Definition bob : Session := mkSession true (Some "bob").
Definition carol : Session := mkSession true (Some "carol").

Definition two_reports_record : GunData :=
  mkGunData None (Some "hmm") 300 (Some "dave") None
    (Some (votes_from ["r1"; "r2"])) None.

Definition one_governance_record : GunData :=
  mkGunData None (Some "hmm") 300 (Some "dave") None None
    (Some (votes_from ["g1"])).

Definition login_form : AuthState := mkAuthState "alice" "secret" false "".
Definition empty_form : AuthState := mkAuthState "alice" "" false "".
Definition sample_sign (alias secret expiresIn : string) : string :=
  alias ++ "." ++ secret ++ "." ++ expiresIn.

Definition two_reports_store : Store := {[ "p3" := two_reports_record ]}.
Definition one_governance_store : Store := {[ "p4" := one_governance_record ]}.

Definition alice_alone : list VoteAction :=
  [mkVoteAction alice report "p1"; mkVoteAction alice governance "p1";
   mkVoteAction visitor report "p1"; mkVoteAction alice report "p1"].

Definition sample_events : list (string * option GunData) :=
  [("p1", Some hello_record); ("p2", Some reported_record);
   ("p1", Some reported_record); ("p3", None)].

(** A logged-in user whose alias is the name of an inherited property. *)
Definition constructor_session : Session := mkSession true (Some "constructor").

(** * Properties *)

(** ** VisibilityPolicy *)

Lemma keys_length_vote_set (o : option Votes) :
  keys_length o = Z.of_nat (size (vote_set o)).
Proof.
  destruct o as [m|]; unfold keys_length, vote_set.
  - by rewrite size_dom.
  - by rewrite size_empty.
Qed.

Lemma eligible_iff (p : PostData) :
  eligible p = true ↔
  (size (vote_set (reports p)) < 3)%nat ∧
  (size (vote_set (governanceVotes p)) < 2)%nat.
Proof.
  unfold eligible, REPORT_THRESHOLD, GOVERNANCE_THRESHOLD.
  rewrite !keys_length_vote_set, andb_true_iff, !Z.ltb_lt. lia.
Qed.

(** C1. A post passes [filterPosts] exactly when it has fewer than 3 report
    votes and fewer than 2 governance votes.  At the boundaries: 2 report
    votes pass and 3 do not; 1 governance vote passes and 2 do not. *)
Theorem filterPosts_threshold_rule :
  (∀ (posts : list PostData) (p : PostData),
      In p (filterPosts posts) ↔
      In p posts ∧
      (size (vote_set (reports p)) < 3)%nat ∧
      (size (vote_set (governanceVotes p)) < 2)%nat) ∧
  (∀ p, size (vote_set (reports p)) = 2%nat →
        (size (vote_set (governanceVotes p)) < 2)%nat → eligible p = true) ∧
  (∀ p, size (vote_set (reports p)) = 3%nat → eligible p = false) ∧
  (∀ p, size (vote_set (governanceVotes p)) = 1%nat →
        (size (vote_set (reports p)) < 3)%nat → eligible p = true) ∧
  (∀ p, size (vote_set (governanceVotes p)) = 2%nat → eligible p = false).
Proof.
  split; [|repeat split].
  - intros posts p. unfold filterPosts.
    rewrite filter_In, eligible_iff. tauto.
  - intros p Hr Hg. apply eligible_iff. lia.
  - intros p Hr. apply not_true_is_false. rewrite eligible_iff. lia.
  - intros p Hg Hr. apply eligible_iff. lia.
  - intros p Hg. apply not_true_is_false. rewrite eligible_iff. lia.
Qed.

(** ** VoteAggregator *)

(** Each outcome of a handler, from an arbitrary starting world. *)
Lemma castVote_logged_out c s postId w :
  loggedIn s = false →
  castVote c s postId w =
    (Normal tt, mkWorld (gun_posts w)
                  (trace w ++ [toast warn "ログインしてください。"])).
Proof.
  intros Hl. destruct c; simpl;
    unfold handleLike, handleReport, handleGovernanceVote; by rewrite Hl.
Qed.

Lemma castVote_no_user c s postId w :
  loggedIn s = true → currentUser s = None →
  castVote c s postId w = (Normal tt, w).
Proof.
  intros Hl Hu. destruct c; simpl;
    unfold handleLike, handleReport, handleGovernanceVote;
    by rewrite Hl, Hu.
Qed.

Lemma castVote_absent c s u postId w :
  loggedIn s = true → currentUser s = Some u →
  gun_posts w !! postId = None →
  castVote c s postId w =
    (Throw TypeError, mkWorld (gun_posts w) (trace w ++ [gun_once postId])).
Proof.
  intros Hl Hu Hd. destruct c; simpl;
    unfold handleLike, handleReport, handleGovernanceVote;
    rewrite Hl, Hu; simpl; unfold bind, once; by rewrite Hd.
Qed.

Lemma castVote_already c s u postId w d :
  loggedIn s = true → currentUser s = Some u →
  gun_posts w !! postId = Some d →
  truthy (default ∅ (votes_of c d)) u = true →
  castVote c s postId w =
    (Normal tt, mkWorld (gun_posts w)
                  (trace w ++ [gun_once postId; toast info (already_voted_msg c)])).
Proof.
  intros Hl Hu Hd Ht. destruct c; simpl in *;
    unfold handleLike, handleReport, handleGovernanceVote;
    rewrite Hl, Hu; simpl; unfold bind, once; rewrite Hd; simpl;
    rewrite Ht; simpl; unfold emit; simpl; by rewrite <- app_assoc.
Qed.

Lemma castVote_votes c s u postId w d :
  loggedIn s = true → currentUser s = Some u →
  gun_posts w !! postId = Some d →
  truthy (default ∅ (votes_of c d)) u = false →
  let votes := <[u := true]> (default ∅ (votes_of c d)) in
  castVote c s postId w =
    (Normal tt,
     mkWorld (store_put postId (patch_of c votes) (gun_posts w))
       (trace w ++
        [gun_once postId; gun_put postId (patch_of c votes)] ++ voted_trace c)).
Proof.
  intros Hl Hu Hd Ht. destruct c; simpl in *;
    unfold handleLike, handleReport, handleGovernanceVote;
    rewrite Hl, Hu; simpl; unfold bind, once; rewrite Hd; simpl;
    rewrite Ht; simpl; unfold put, emit; simpl;
    rewrite <- ?app_assoc; simpl; by rewrite ?app_nil_r.
Qed.

Lemma votes_of_merge_same c v d :
  votes_of c (merge_patch (patch_of c v) d) = Some v.
Proof. by destruct c. Qed.

Lemma votes_of_merge_other c c' v d :
  c' ≠ c → votes_of c' (merge_patch (patch_of c v) d) = votes_of c' d.
Proof. by destruct c, c'. Qed.

Lemma store_put_lookup postId p (σ : Store) d :
  σ !! postId = Some d →
  store_put postId p σ !! postId = Some (merge_patch p d).
Proof.
  intros Hd. unfold store_put. rewrite lookup_alter, decide_True by done.
  by rewrite Hd.
Qed.

Lemma store_put_lookup_ne postId p (σ : Store) k :
  k ≠ postId → store_put postId p σ !! k = σ !! k.
Proof.
  intros Hk. unfold store_put. by rewrite lookup_alter, decide_False.
Qed.

Lemma vote_set_default (o : option Votes) : dom (default ∅ o) = vote_set o.
Proof. destruct o; simpl; [done|]. apply dom_empty_L. Qed.


Lemma truthy_insert_ne (m : Votes) u u' b :
  u ≠ u' → truthy (<[u' := b]> m) u = truthy m u.
Proof. intros Hne. unfold truthy. by rewrite lookup_insert_ne. Qed.

(** A truthy read of a name no object inherits is an own key. *)
Lemma truthy_own (m : Votes) u :
  truthy m u = true → inherited u = false → u ∈ dom m.
Proof.
  unfold truthy. intros Ht Hi. apply elem_of_dom.
  destruct (m !! u); [eauto | congruence].
Qed.


(** ** Frame of a vote *)

(** C8. A successful vote of class [c] (the handler read
    [votes[currentUser]] as falsy and took the voting branch) makes exactly
    one store write, a
    [put] whose object holds the vote set of class [c] and nothing else.
    After it the record's text, creation time, author, own id and the vote
    sets of the other classes are as before, every identity that was in the
    set is still in it, the actor is in it, and other records are untouched. *)
Theorem castVote_writes_only_its_field
    (c : VoteClass) (s : Session) (u postId : string) (σ : Store) (d : GunData) :
  loggedIn s = true → currentUser s = Some u → σ !! postId = Some d →
  truthy (default ∅ (votes_of c d)) u = false →
  ∃ patch votes d',
    List.filter is_store_write (trace_of (castVote c s postId) σ)
      = [gun_put postId patch] ∧
    patch_votes_of c patch = Some votes ∧
    (∀ c', c' ≠ c → patch_votes_of c' patch = None) ∧
    p_text patch = None ∧ p_createdAt patch = None ∧ p_user patch = None ∧
    dom votes = {[u]} ∪ vote_set (votes_of c d) ∧
    store_after (castVote c s postId) σ !! postId = Some d' ∧
    votes_of c d' = Some votes ∧
    (∀ c', c' ≠ c → votes_of c' d' = votes_of c' d) ∧
    d_text d' = d_text d ∧ d_createdAt d' = d_createdAt d ∧
    d_user d' = d_user d ∧ d_id d' = d_id d ∧
    (∀ k, k ≠ postId →
          store_after (castVote c s postId) σ !! k = σ !! k).
Proof.
  intros Hl Hu Hd Ht.
  set (votes := <[u := true]> (default ∅ (votes_of c d))).
  exists (patch_of c votes), votes, (merge_patch (patch_of c votes) d).
  unfold trace_of, store_after, run.
  rewrite (castVote_votes c s u postId _ d) by done. fold votes. simpl.
  repeat split.
  - by destruct c.
  - by destruct c.
  - intros c' Hc. by destruct c, c'.
  - by destruct c.
  - by destruct c.
  - by destruct c.
  - subst votes. by rewrite dom_insert_L, vote_set_default.
  - by apply store_put_lookup.
  - apply votes_of_merge_same.
  - intros c' Hc. by apply votes_of_merge_other.
  - by destruct c.
  - by destruct c.
  - by destruct c.
  - intros k Hk. by apply store_put_lookup_ne.
Qed.

(** ** Monotonicity of visibility *)

Lemma grows_refl d : grows d d.
Proof. by intros c. Qed.

Lemma grows_trans d1 d2 d3 : grows d1 d2 → grows d2 d3 → grows d1 d3.
Proof. intros H12 H23 c. by transitivity (vote_set (votes_of c d2)). Qed.

Lemma merge_patch_grows c u d :
  grows d (merge_patch (patch_of c (<[u := true]> (default ∅ (votes_of c d)))) d).
Proof.
  intros c'. destruct (decide (c' = c)) as [->|Hne].
  - rewrite votes_of_merge_same. simpl.
    rewrite dom_insert_L, vote_set_default. set_solver.
  - by rewrite votes_of_merge_other.
Qed.

(** One action keeps every record in place and only adds to its vote sets. *)
Lemma apply_action_grows (σ : Store) (a : VoteAction) key d :
  σ !! key = Some d →
  ∃ d', apply_action σ a !! key = Some d' ∧ grows d d'.
Proof.
  intros Hd. destruct a as [s c postId].
  unfold apply_action, store_after, run. simpl.
  destruct (loggedIn s) eqn:Hl.
  2:{ rewrite castVote_logged_out by done. simpl. eauto using grows_refl. }
  destruct (currentUser s) as [u|] eqn:Hu.
  2:{ rewrite castVote_no_user by done. simpl. eauto using grows_refl. }
  destruct (σ !! postId) as [dp|] eqn:Hp.
  2:{ rewrite (castVote_absent c s u) by done. simpl. eauto using grows_refl. }
  destruct (truthy (default ∅ (votes_of c dp)) u) eqn:Ht.
  { rewrite (castVote_already c s u postId _ dp) by done. simpl.
    eauto using grows_refl. }
  rewrite (castVote_votes c s u postId _ dp) by done. simpl.
  destruct (decide (key = postId)) as [->|Hne].
  - rewrite Hd in Hp. injection Hp as <-.
    eexists. split; [by apply store_put_lookup|]. apply merge_patch_grows.
  - rewrite store_put_lookup_ne by done. eauto using grows_refl.
Qed.

Lemma apply_actions_grows (acts : list VoteAction) (σ : Store) key d :
  σ !! key = Some d →
  ∃ d', apply_actions σ acts !! key = Some d' ∧ grows d d'.
Proof.
  revert σ d. induction acts as [|a acts IH]; intros σ d Hd; simpl.
  - eauto using grows_refl.
  - destruct (apply_action_grows σ a key d Hd) as (d1 & Hd1 & Hg1).
    destruct (IH _ _ Hd1) as (d2 & Hd2 & Hg2).
    eauto using grows_trans.
Qed.

Lemma grows_ineligible key d d' :
  grows d d' →
  eligible (spread_post key d) = false → eligible (spread_post key d') = false.
Proof.
  intros Hg Hd. apply not_true_is_false. intros He.
  apply not_true_iff_false in Hd. apply Hd.
  apply eligible_iff in He as [Hr Hv]. apply eligible_iff. simpl in *.
  pose proof (subseteq_size _ _ (Hg report)) as Hsr.
  pose proof (subseteq_size _ _ (Hg governance)) as Hsg.
  simpl in *. lia.
Qed.

(** C3. Once the post stored under a key is ineligible, it is still there
    and still ineligible after any sequence of vote actions, of any class,
    by any sessions, on any posts — and so after every prefix of the
    sequence; each of its vote sets contains what it contained before. *)
Theorem ineligible_stays_ineligible
    (σ : Store) (acts : list VoteAction) (key : string) (d : GunData) :
  σ !! key = Some d →
  eligible (spread_post key d) = false →
  ∀ n, ∃ d',
    apply_actions σ (take n acts) !! key = Some d' ∧
    grows d d' ∧
    eligible (spread_post key d') = false.
Proof.
  intros Hd Hin n.
  destruct (apply_actions_grows (take n acts) σ key d Hd) as (d' & Hd' & Hg).
  exists d'. eauto using grows_ineligible.
Qed.

(** ** The rendered feed *)

Section SortDescending.
Context {A : Type} (key : A → Z).

Local Abbreviation compareFn := (λ a b : A, key b - key a).
Local Abbreviation at_time t := (λ x : A, key x =? t).

Lemma sort_insert_perm x l : sort_insert compareFn x l ≡ₚ x :: l.
Proof.
  induction l as [|y l IH]; simpl; [done|].
  destruct (compareFn x y <=? 0); [done|].
  rewrite IH. apply Permutation_swap.
Qed.

Lemma Array_sort_perm l : Array_sort compareFn l ≡ₚ l.
Proof.
  induction l as [|x l IH]; simpl; [done|].
  unfold Array_sort in *. simpl. by rewrite sort_insert_perm, IH.
Qed.

Lemma sort_insert_sorted x l :
  StronglySorted (λ a b, key b ≤ key a) l →
  StronglySorted (λ a b, key b ≤ key a) (sort_insert compareFn x l).
Proof.
  induction 1 as [|y l Hs IH Hy]; simpl.
  - repeat constructor.
  - destruct (Z.leb_spec (key y - key x) 0) as [Hle|Hgt].
    + constructor; [by constructor|].
      constructor; [lia|].
      eapply Forall_impl; [exact Hy|]. simpl. intros z Hz. lia.
    + constructor; [done|].
      rewrite sort_insert_perm. constructor; [lia | done].
Qed.

Lemma Array_sort_sorted l :
  StronglySorted (λ a b, key b ≤ key a) (Array_sort compareFn l).
Proof.
  induction l as [|x l IH]; [constructor|].
  by apply sort_insert_sorted.
Qed.

(** Stability: among elements with the same key, insertion puts the new
    one first and keeps the rest in order. *)
Lemma sort_insert_stable t x l :
  List.filter (at_time t) (sort_insert compareFn x l) =
  List.filter (at_time t) (x :: l).
Proof.
  induction l as [|y l IH]; [done|].
  simpl. destruct (Z.leb_spec (key y - key x) 0) as [Hle|Hgt]; [done|].
  simpl in *. rewrite IH. simpl.
  destruct (Z.eqb_spec (key x) t), (Z.eqb_spec (key y) t); try done; lia.
Qed.

Lemma Array_sort_stable t l :
  List.filter (at_time t) (Array_sort compareFn l) = List.filter (at_time t) l.
Proof.
  induction l as [|x l IH]; [done|].
  unfold Array_sort in *. simpl foldr. rewrite sort_insert_stable.
  simpl. by rewrite IH.
Qed.
End SortDescending.

(** C4, as the code has it. The rendered list holds exactly the eligible
    posts of the view, newest first; posts with equal [createdAt] keep the
    order they have in the view (the sort is stable and the comparator looks
    at [createdAt] only).  For the view [a(100), b(300), c(300), d(200)]
    the result is [b, c, d, a]. *)
Theorem snapshot_newest_first_stable :
  (∀ posts : list PostData,
      snapshot posts ≡ₚ filterPosts posts ∧
      StronglySorted (λ a b, createdAt b ≤ createdAt a) (snapshot posts) ∧
      ∀ t, List.filter (λ p, createdAt p =? t) (snapshot posts) =
           List.filter (λ p, createdAt p =? t) (filterPosts posts)) ∧
  snapshot [post_at "a" 100; post_at "b" 300; post_at "c" 300; post_at "d" 200]
    = [post_at "b" 300; post_at "c" 300; post_at "d" 200; post_at "a" 100].
Proof.
  split; [|reflexivity].
  intros posts. unfold snapshot. split; [|split].
  - apply Array_sort_perm.
  - apply (Array_sort_sorted createdAt).
  - intros t. apply (Array_sort_stable createdAt).
Qed.

(** C4, counterexample. With the same four posts arriving as a, c, b, d the
    rendered list is [c, b, d, a]: the tie at 300 is not ordered by
    identifier, so the list is not sorted in the order the claim states. *)
Lemma snapshot_ties_not_by_id :
  snapshot [post_at "a" 100; post_at "c" 300; post_at "b" 300; post_at "d" 200]
    = [post_at "c" 300; post_at "b" 300; post_at "d" 200; post_at "a" 100] ∧
  ¬ StronglySorted spec_order
      (snapshot [post_at "a" 100; post_at "c" 300; post_at "b" 300;
                 post_at "d" 200]).
Proof.
  assert (snapshot [post_at "a" 100; post_at "c" 300; post_at "b" 300;
                    post_at "d" 200]
          = [post_at "c" 300; post_at "b" 300; post_at "d" 200; post_at "a" 100])
    as Heq by reflexivity.
  split; [exact Heq|].
  rewrite Heq. intros Hs.
  apply StronglySorted_inv in Hs as [_ Hall].
  apply Forall_inv in Hall. destruct Hall as [Hlt | [_ Hleb]].
  - simpl in Hlt. lia.
  - vm_compute in Hleb. discriminate.
Qed.

(** ** Votes on a missing post, votes without an actor *)

(** C5, as the code has it. When a resolved actor votes on a key that holds
    no record at read time, the handler reads once and its callback ends
    with an uncaught [TypeError]: the store is not written, nothing is
    retried and no toast of any level is shown. *)
Theorem castVote_missing_post
    (c : VoteClass) (s : Session) (u postId : string) (σ : Store) :
  loggedIn s = true → currentUser s = Some u → σ !! postId = None →
  run (castVote c s postId) σ =
    (Throw TypeError, mkWorld σ [gun_once postId]).
Proof.
  intros Hl Hu Hd. unfold run. by rewrite (castVote_absent c s u).
Qed.

(** C5, counterexample. Reporting a post on an empty store surfaces no
    error: the trace holds no [toast.error], only the read. *)
Lemma missing_post_surfaces_no_error :
  ¬ (∃ msg, In (toast error msg) (trace_of (castVote report alice "p1") ∅)) ∧
  completion_of (castVote report alice "p1") ∅ = Throw TypeError.
Proof.
  split; [|reflexivity].
  intros [msg Hin]. vm_compute in Hin.
  destruct Hin as [Heq | []]. discriminate.
Qed.

(** C6, as the code has it. Without a resolved actor a vote handler returns
    before touching the store, which stays as it was.  When the [loggedIn]
    flag is off it shows the login warning; when the flag is on but no
    alias resolves it returns without showing anything. *)
Theorem castVote_without_actor
    (c : VoteClass) (s : Session) (postId : string) (σ : Store) :
  loggedIn s = false ∨ currentUser s = None →
  completion_of (castVote c s postId) σ = Normal tt ∧
  store_after (castVote c s postId) σ = σ ∧
  List.filter is_store_access (trace_of (castVote c s postId) σ) = [] ∧
  (loggedIn s = false →
     trace_of (castVote c s postId) σ = [toast warn "ログインしてください。"]) ∧
  (loggedIn s = true → trace_of (castVote c s postId) σ = []).
Proof.
  intros Hcase. unfold completion_of, store_after, trace_of, run.
  destruct (loggedIn s) eqn:Hl.
  - destruct Hcase as [?|Hu]; [done|].
    rewrite castVote_no_user by done. simpl. by repeat split.
  - rewrite castVote_logged_out by done. simpl. by repeat split.
Qed.

(** C6, counterexample. With the flag on and no alias resolved, the handler
    shows no warning at all. *)
Lemma castVote_stale_session_silent :
  currentUser stale_session = None ∧
  ¬ (∃ msg, In (toast warn msg)
               (trace_of (castVote like stale_session "p1") hello_store)).
Proof.
  split; [reflexivity|].
  intros [msg Hin]. vm_compute in Hin. destruct Hin.
Qed.

(** ** The subscription callback *)

Lemma onUpdate_ignored key data view :
  has_text data = false → onUpdate key data view = view.
Proof.
  intros Hg. unfold onUpdate. destruct data; [|done]. by rewrite Hg.
Qed.

Lemma onUpdate_insert key d view :
  has_text (Some d) = true →
  List.find (λ p, bool_decide (id p = key)) view = None →
  onUpdate key (Some d) view = view ++ [spread_post key d].
Proof. intros Hg Hf. unfold onUpdate. by rewrite Hg, Hf. Qed.

Lemma onUpdate_replace key d view p0 :
  has_text (Some d) = true →
  List.find (λ p, bool_decide (id p = key)) view = Some p0 →
  onUpdate key (Some d) view =
    List.map (λ p, if bool_decide (id p = key) then spread_post key d else p) view.
Proof. intros Hg Hf. unfold onUpdate. by rewrite Hg, Hf. Qed.

Lemma spread_post_id key d :
  d_id d = None ∨ d_id d = Some key → id (spread_post key d) = key.
Proof. intros [H|H]; simpl; by rewrite H. Qed.

Lemma find_finds {A} (f : A → bool) (l : list A) (x : A) :
  In x l → f x = true → ∃ y, List.find f l = Some y.
Proof.
  intros Hin Hx. destruct (List.find f l) as [y|] eqn:Hf; [eauto|].
  pose proof (find_none _ _ Hf x Hin) as Hfalse. congruence.
Qed.

(** After one update with a payload that keeps the key as its id, the key
    is known and every entry under it is the payload's post. *)
Lemma onUpdate_settled key d view :
  has_text (Some d) = true →
  id (spread_post key d) = key →
  let view' := onUpdate key (Some d) view in
  (∃ p0, List.find (λ p, bool_decide (id p = key)) view' = Some p0) ∧
  List.map (λ p, if bool_decide (id p = key) then spread_post key d else p) view'
    = view'.
Proof.
  intros Hg Hid view'. subst view'.
  destruct (List.find (λ p, bool_decide (id p = key)) view) as [p0|] eqn:Hf.
  - rewrite (onUpdate_replace key d view p0) by done. split.
    + apply find_some in Hf as [Hin Hp0].
      apply (find_finds _ _ (spread_post key d)).
      * apply in_map_iff. exists p0. by rewrite Hp0.
      * by rewrite Hid, bool_decide_eq_true_2.
    + rewrite List.map_map. apply map_ext. intros p. cbv beta.
      destruct (bool_decide (id p = key)) eqn:Hp.
      * by rewrite Hid, bool_decide_eq_true_2.
      * by rewrite Hp.
  - rewrite onUpdate_insert by done. split.
    + apply (find_finds _ _ (spread_post key d)).
      * apply in_app_iff. right. by left.
      * by rewrite Hid, bool_decide_eq_true_2.
    + rewrite List.map_app. cbn [List.map].
      rewrite Hid, bool_decide_eq_true_2 by done. f_equal.
      rewrite <- (List.map_id view) at 2. apply map_ext_in. intros p Hin.
      by rewrite (find_none _ _ Hf p Hin).
Qed.

(** X21. For a payload that has no [id] property of its own, or whose [id]
    is the key, delivering the same (key, payload) event [n ≥ 1] times
    leaves the view as delivering it once does: an unknown key is appended,
    a known one has its entries replaced by the payload's post. *)
Theorem onUpdate_replay
    (view : list PostData) (key : string) (data : option GunData) (n : nat) :
  (∀ d, data = Some d → d_id d = None ∨ d_id d = Some key) →
  (1 ≤ n)%nat →
  Nat.iter n (onUpdate key data) view = onUpdate key data view ∧
  (∀ d, data = Some d → has_text data = true →
     (Forall (λ p, id p ≠ key) view →
        onUpdate key data view = view ++ [spread_post key d]) ∧
     (Exists (λ p, id p = key) view →
        onUpdate key data view =
          List.map (λ p, if bool_decide (id p = key)
                         then spread_post key d else p) view)).
Proof.
  intros Hid Hn. split; last first.
  { intros d -> Hg. split.
    - intros Hall. apply onUpdate_insert; [done|].
      destruct (List.find _ view) as [p0|] eqn:Hf; [|done].
      apply find_some in Hf as [Hin Hp0].
      rewrite Forall_forall in Hall.
      apply list_elem_of_In, Hall in Hin.
      by apply bool_decide_eq_true in Hp0.
    - intros Hex. apply Exists_exists in Hex as (p & Hin & Hp).
      destruct (find_finds (λ p, bool_decide (id p = key)) view p) as [p0 Hf].
      + by apply list_elem_of_In.
      + by apply bool_decide_eq_true_2.
      + by apply (onUpdate_replace key d view p0). }
  destruct (has_text data) eqn:Hg.
  2:{ clear Hn. induction n as [|n IH]; simpl.
      - by rewrite onUpdate_ignored.
      - by rewrite IH, !onUpdate_ignored. }
  destruct data as [d|]; [|done].
  specialize (Hid d eq_refl). apply spread_post_id in Hid.
  destruct (onUpdate_settled key d view Hg Hid) as [[p0 Hf] Hfix].
  assert (onUpdate key (Some d) (onUpdate key (Some d) view)
          = onUpdate key (Some d) view) as Hidem.
  { by rewrite (onUpdate_replace key d _ p0). }
  induction n as [|n IH]; [lia|].
  destruct n as [|n]; [done|].
  simpl in *. rewrite IH by lia. exact Hidem.
Qed.

(** C7. Replaying an identical event is meant to leave the view as one
    delivery does, and the callback looks the key up to that end; the code
    run on a payload with its own [id] "x" under key "k": the entry is built
    with the spread after [id: key] and so carries id "x", the key is never
    found as known, and the replay appends a second entry. *)
Lemma foreign_id_replay_appends :
  onUpdate "k" (Some foreign_id_record) []
    = [spread_post "k" foreign_id_record] ∧
  Nat.iter 2 (onUpdate "k" (Some foreign_id_record)) []
    = [spread_post "k" foreign_id_record; spread_post "k" foreign_id_record] ∧
  Nat.iter 2 (onUpdate "k" (Some foreign_id_record)) []
    ≠ onUpdate "k" (Some foreign_id_record) [].
Proof. repeat split. discriminate. Qed.

(** C9. An event whose payload is null, or has no text, or an empty text,
    leaves the view as it is; hence every entry of a view built from the
    empty one by any events has a non-empty text. *)
Theorem subscription_ignores_textless :
  (∀ key view, onUpdate key None view = view) ∧
  (∀ key d view,
      d_text d = None ∨ d_text d = Some "" →
      onUpdate key (Some d) view = view) ∧
  (∀ evs p, In p (apply_events evs []) → text p ≠ "").
Proof.
  split; [done|]. split.
  - intros key d view Ht. apply onUpdate_ignored.
    unfold has_text. by destruct Ht as [-> | ->].
  - assert (∀ key data view,
              Forall (λ p, text p ≠ "") view →
              Forall (λ p, text p ≠ "") (onUpdate key data view)) as Hstep.
    { intros key data view Hall.
      destruct (has_text data) eqn:Hg; [|by rewrite onUpdate_ignored].
      destruct data as [d|]; [|done].
      assert (text (spread_post key d) ≠ "") as Hne.
      { unfold has_text in Hg. simpl. destruct (d_text d) as [t|]; [|done].
        simpl. by apply negb_true_iff, bool_decide_eq_false in Hg. }
      unfold onUpdate. rewrite Hg.
      destruct (List.find _ view) as [p0|].
      - apply Forall_forall. intros p Hin.
        apply list_elem_of_In, in_map_iff in Hin as (q & <- & Hq).
        destruct (bool_decide (id q = key)); [done|].
        rewrite Forall_forall in Hall. by apply Hall, list_elem_of_In.
      - apply Forall_app. split; [done|]. by constructor. }
    assert (∀ evs view,
              Forall (λ p, text p ≠ "") view →
              Forall (λ p, text p ≠ "") (apply_events evs view)) as Hall.
    { induction evs as [|[key data] evs IH]; intros view Hv; [done|].
      simpl. apply IH. by apply Hstep. }
    intros evs p Hin.
    specialize (Hall evs [] ltac:(constructor)).
    rewrite Forall_forall in Hall. by apply Hall, list_elem_of_In.
Qed.

(** ** Post submission *)

Section PostingProperties.
Context (trim DOMPurify_sanitize : string → string)
        (script_regex_test : string → bool) (new_soul : Store → string).

Local Abbreviation handlePost' :=
  (handlePost trim DOMPurify_sanitize script_regex_test new_soul).

Lemma new_post_unvoted s t now :
  d_likes (new_post s t now) = Some ∅ ∧
  d_reports (new_post s t now) = Some ∅ ∧
  d_governanceVotes (new_post s t now) = Some ∅ ∧
  ∀ key, eligible (spread_post key (new_post s t now)) = true.
Proof. by repeat split. Qed.

(** Every run of [handlePost] either hands nothing to [set], or hands it
    the new post built from the sanitized text. *)
Lemma handlePost_run s input now ack_err σ :
  let t := DOMPurify_sanitize (trim input) in
  let post := new_post s t now in
  let accepted :=
    loggedIn s && negb (Z.of_nat (String.length (trim input)) <? 3)
    && negb (script_regex_test t) && negb (bool_decide (t = "")) in
  if accepted then
    List.filter is_store_write (trace_of (handlePost' s input now ack_err) σ)
      = [gun_set post] ∧
    store_after (handlePost' s input now ack_err) σ =
      (if err_truthy ack_err then σ else <[new_soul σ := post]> σ)
  else
    List.filter is_store_write (trace_of (handlePost' s input now ack_err) σ)
      = [] ∧
    store_after (handlePost' s input now ack_err) σ = σ.
Proof.
  intros t post accepted. subst accepted post t.
  unfold trace_of, store_after, run, handlePost, validateAndSanitizeInput.
  cbv [bind ret emit posts_set].
  destruct (loggedIn s); simpl; [|done].
  destruct (Z.of_nat (String.length (trim input)) <? 3); simpl; [done|].
  destruct (script_regex_test (DOMPurify_sanitize (trim input)));
    simpl; [done|].
  destruct (bool_decide (DOMPurify_sanitize (trim input) = ""));
    simpl; [done|].
  by destruct (err_truthy ack_err).
Qed.
End PostingProperties.

(** C10. Whatever [handlePost] hands to the store's [set] has its three
    vote objects empty and passes [filterPosts] under any key; and a
    submission by a logged-in user whose trimmed text has at least 3
    characters, passes the script check and sanitizes to a non-empty text
    does hand over such a post, which the store then holds when it
    acknowledges without error. *)
Theorem handlePost_creates_unvoted_post
    (trim DOMPurify_sanitize : string → string)
    (script_regex_test : string → bool) (new_soul : Store → string)
    (s : Session) (input : string) (now : Z) (ack_err : option string)
    (σ : Store) :
  let submit :=
    handlePost trim DOMPurify_sanitize script_regex_test new_soul
      s input now ack_err in
  (∀ post, In (gun_set post) (trace_of submit σ) →
     d_likes post = Some ∅ ∧ d_reports post = Some ∅ ∧
     d_governanceVotes post = Some ∅ ∧
     ∀ key, eligible (spread_post key post) = true) ∧
  (loggedIn s = true →
   (3 ≤ String.length (trim input))%nat →
   script_regex_test (DOMPurify_sanitize (trim input)) = false →
   DOMPurify_sanitize (trim input) ≠ "" →
   let post := new_post s (DOMPurify_sanitize (trim input)) now in
   In (gun_set post) (trace_of submit σ) ∧
   (ack_err = None → store_after submit σ !! new_soul σ = Some post)).
Proof.
  intros submit.
  pose proof (handlePost_run trim DOMPurify_sanitize script_regex_test
                new_soul s input now ack_err σ) as Hrun.
  cbv zeta in Hrun. fold submit in Hrun.
  assert (∀ e l, In e l → is_store_write e = true →
                 In e (List.filter is_store_write l)) as Hfilter.
  { intros e l Hin He. apply filter_In. by split. }
  split.
  - intros post Hin. apply Hfilter in Hin; [|done].
    destruct (_ && _) in Hrun; destruct Hrun as [Htr _]; rewrite Htr in Hin.
    + destruct Hin as [Heq | []]. injection Heq as <-.
      apply new_post_unvoted.
    + destruct Hin.
  - intros Hl Hlen Hscript Hne post.
    rewrite Hl, Hscript in Hrun.
    rewrite (proj2 (Z.ltb_ge _ _)) in Hrun by lia.
    rewrite bool_decide_eq_false_2 in Hrun by done.
    simpl in Hrun. destruct Hrun as [Htr Hst]. split.
    + assert (In (gun_set post) (List.filter is_store_write (trace_of submit σ)))
        as Hin by (rewrite Htr; by left).
      by apply filter_In in Hin as [Hin _].
    + intros ->. rewrite Hst. apply lookup_insert_eq.
Qed.

(** * The properties at concrete inputs *)

Lemma filterPosts_threshold_rule_witness :
  In (post_with ["r1"; "r2"] ["g1"])
     (filterPosts [post_with ["r1"; "r2"] ["g1"]]) ∧
  eligible (post_with ["r1"; "r2"] []) = true ∧
  eligible (post_with ["r1"; "r2"; "r3"] []) = false ∧
  eligible (post_with [] ["g1"]) = true ∧
  eligible (post_with [] ["g1"; "g2"]) = false.
Proof.
  destruct filterPosts_threshold_rule as (Hiff & H2 & H3 & H1 & H2g).
  split; [|split; [|split; [|split]]].
  - apply Hiff. split; [by left|]. split; vm_compute; lia.
  - apply H2; vm_compute; [reflexivity | lia].
  - apply H3. vm_compute. reflexivity.
  - apply H1; vm_compute; [reflexivity | lia].
  - apply H2g. vm_compute. reflexivity.
Defined.


Lemma ineligible_stays_ineligible_witness :
  ∃ d', apply_actions reported_store (take 4 later_actions) !! "p2" = Some d' ∧
        grows reported_record d' ∧
        eligible (spread_post "p2" d') = false.
Proof.
  apply (ineligible_stays_ineligible reported_store later_actions "p2"
           reported_record); reflexivity.
Defined.

Lemma castVote_missing_post_witness :
  run (castVote like alice "gone") hello_store =
    (Throw TypeError, mkWorld hello_store [gun_once "gone"]).
Proof.
  apply (castVote_missing_post like alice "alice" "gone" hello_store);
    reflexivity.
Defined.

Lemma castVote_without_actor_witness :
  completion_of (castVote governance visitor "p1") hello_store = Normal tt ∧
  store_after (castVote governance visitor "p1") hello_store = hello_store ∧
  List.filter is_store_access
    (trace_of (castVote governance visitor "p1") hello_store) = [] ∧
  (loggedIn visitor = false →
     trace_of (castVote governance visitor "p1") hello_store
       = [toast warn "ログインしてください。"]) ∧
  (loggedIn visitor = true →
     trace_of (castVote governance visitor "p1") hello_store = []).
Proof.
  apply (castVote_without_actor governance visitor "p1" hello_store).
  left. reflexivity.
Defined.

Lemma onUpdate_replay_witness :
  Nat.iter 3 (onUpdate "p1" (Some hello_record)) []
    = onUpdate "p1" (Some hello_record) [] ∧
  (∀ d, Some hello_record = Some d → has_text (Some hello_record) = true →
     (Forall (λ p, id p ≠ "p1") [] →
        onUpdate "p1" (Some hello_record) [] = [] ++ [spread_post "p1" d]) ∧
     (Exists (λ p, id p = "p1") [] →
        onUpdate "p1" (Some hello_record) [] =
          List.map (λ p, if bool_decide (id p = "p1")
                         then spread_post "p1" d else p) [])).
Proof.
  apply (onUpdate_replay [] "p1" (Some hello_record) 3).
  - intros d Hd. injection Hd as <-. left. reflexivity.
  - lia.
Defined.

Lemma castVote_writes_only_its_field_witness :
  ∃ patch votes d',
    List.filter is_store_write
      (trace_of (castVote governance alice "p1") hello_store)
      = [gun_put "p1" patch] ∧
    patch_votes_of governance patch = Some votes ∧
    (∀ c', c' ≠ governance → patch_votes_of c' patch = None) ∧
    p_text patch = None ∧ p_createdAt patch = None ∧ p_user patch = None ∧
    dom votes = {["alice"]} ∪ vote_set (votes_of governance hello_record) ∧
    store_after (castVote governance alice "p1") hello_store !! "p1" = Some d' ∧
    votes_of governance d' = Some votes ∧
    (∀ c', c' ≠ governance → votes_of c' d' = votes_of c' hello_record) ∧
    d_text d' = d_text hello_record ∧
    d_createdAt d' = d_createdAt hello_record ∧
    d_user d' = d_user hello_record ∧ d_id d' = d_id hello_record ∧
    (∀ k, k ≠ "p1" →
          store_after (castVote governance alice "p1") hello_store !! k
            = hello_store !! k).
Proof.
  apply (castVote_writes_only_its_field governance alice "alice" "p1"
           hello_store hello_record); reflexivity.
Defined.

Lemma subscription_ignores_textless_witness :
  onUpdate "p1" (Some (mkGunData None (Some "") 1 None None None None))
    [post_at "a" 100] = [post_at "a" 100] ∧
  (∀ p, In p (apply_events [("p1", Some hello_record); ("p3", None)] []) →
        text p ≠ "").
Proof.
  destruct subscription_ignores_textless as (_ & Hempty & Hinv).
  split.
  - apply Hempty. right. reflexivity.
  - apply Hinv.
Defined.

Lemma handlePost_creates_unvoted_post_witness :
  In (gun_set (new_post alice "hello" 5))
     (trace_of (handlePost (λ x, x) (λ x, x) no_script sample_soul
                  alice "hello" 5 None) ∅) ∧
  store_after (handlePost (λ x, x) (λ x, x) no_script sample_soul
                 alice "hello" 5 None) ∅ !! "soul1"
    = Some (new_post alice "hello" 5).
Proof.
  destruct (handlePost_creates_unvoted_post (λ x, x) (λ x, x) no_script
              sample_soul alice "hello" 5 None ∅) as [_ Hsubmit].
  destruct Hsubmit as [Hin Hstore].
  - reflexivity.
  - simpl. lia.
  - reflexivity.
  - discriminate.
  - split; [exact Hin | by apply Hstore].
Defined.

(** * Further properties of the handlers *)

(** ** A vote as a function on the stored record *)

Lemma alter_absent (f : GunData → GunData) (k : string) (σ : Store) :
  σ !! k = None → alter f k σ = σ.
Proof.
  intros Hk. apply map_eq. intros j. rewrite lookup_alter.
  case_decide; [subst; by rewrite Hk | done].
Qed.

Lemma alter_agree (f g : GunData → GunData) (k : string) (σ : Store) d :
  σ !! k = Some d → f d = g d → alter f k σ = alter g k σ.
Proof.
  intros Hk Hfg. apply map_eq. intros j. rewrite !lookup_alter.
  case_decide; [subst; rewrite Hk; simpl; by rewrite Hfg | done].
Qed.

Lemma alter_fixed (f : GunData → GunData) (k : string) (σ : Store) d :
  σ !! k = Some d → f d = d → alter f k σ = σ.
Proof.
  intros Hk Hf. apply map_eq. intros j. rewrite lookup_alter.
  case_decide; [subst; rewrite Hk; simpl; by rewrite Hf | done].
Qed.

(** Every run of a vote handler changes the store as [cast_on] says, at the
    one key, and only when the session resolves an actor. *)
Lemma apply_action_alter (σ : Store) (a : VoteAction) :
  apply_action σ a =
    match acting_user (va_session a) with
    | Some u => alter (cast_on (va_class a) u) (va_postId a) σ
    | None => σ
    end.
Proof.
  destruct a as [s c postId]. unfold apply_action, store_after, run, acting_user.
  simpl. destruct (loggedIn s) eqn:Hl.
  2:{ by rewrite castVote_logged_out. }
  destruct (currentUser s) as [u|] eqn:Hu.
  2:{ by rewrite castVote_no_user. }
  destruct (σ !! postId) as [d|] eqn:Hd.
  2:{ rewrite (castVote_absent c s u) by done. simpl.
      by rewrite alter_absent. }
  destruct (truthy (default ∅ (votes_of c d)) u) eqn:Ht.
  - rewrite (castVote_already c s u postId _ d) by done. simpl.
    symmetry. apply (alter_fixed _ _ _ d); [done|].
    unfold cast_on. by rewrite Ht.
  - rewrite (castVote_votes c s u postId _ d) by done. simpl.
    unfold store_put. apply (alter_agree _ _ _ _ d); [done|].
    unfold cast_on. by rewrite Ht.
Qed.

(** A falsy read of an inherited name is an own key holding [false]. *)
Lemma falsy_inherited_own (m : Votes) u :
  truthy m u = false → inherited u = true → u ∈ dom m.
Proof.
  unfold truthy. intros Ht Hi. apply elem_of_dom.
  destruct (m !! u); [eauto | congruence].
Qed.

Lemma cast_on_vote_set c u c' d :
  vote_set (votes_of c' (cast_on c u d)) =
    if decide (c' = c)
    then (if inherited u then ∅ else {[u]}) ∪ vote_set (votes_of c d)
    else vote_set (votes_of c' d).
Proof.
  unfold cast_on.
  destruct (truthy (default ∅ (votes_of c d)) u) eqn:Ht.
  - destruct (decide (c' = c)) as [->|Hc]; [|done].
    destruct (inherited u) eqn:Hi; [by rewrite (left_id_L ∅ (∪))|].
    apply truthy_own in Ht; [|done]. rewrite vote_set_default in Ht.
    symmetry. apply subseteq_union_1_L. by apply singleton_subseteq_l.
  - destruct (decide (c' = c)) as [->|Hc].
    + rewrite votes_of_merge_same. simpl.
      rewrite dom_insert_L, vote_set_default.
      destruct (inherited u) eqn:Hi; [|done].
      apply falsy_inherited_own in Ht; [|done].
      rewrite vote_set_default in Ht. rewrite (left_id_L ∅ (∪)).
      apply subseteq_union_1_L. by apply singleton_subseteq_l.
    + by rewrite votes_of_merge_other.
Qed.

Lemma cast_on_fields c u d :
  d_id (cast_on c u d) = d_id d ∧ d_text (cast_on c u d) = d_text d ∧
  d_createdAt (cast_on c u d) = d_createdAt d ∧
  d_user (cast_on c u d) = d_user d.
Proof.
  unfold cast_on. destruct (truthy _); [done|]. by destruct c.
Qed.

Lemma cast_on_comm c u c' u' d :
  cast_on c u (cast_on c' u' d) = cast_on c' u' (cast_on c u d).
Proof.
  destruct (decide (c = c')) as [<-|Hc].
  - destruct (decide (u = u')) as [<-|Hu]; [done|].
    unfold cast_on.
    destruct (truthy (default ∅ (votes_of c d)) u) eqn:Ht;
      destruct (truthy (default ∅ (votes_of c d)) u') eqn:Ht';
      rewrite ?Ht, ?Ht'; try done.
    + rewrite votes_of_merge_same. simpl.
      rewrite truthy_insert_ne by done. by rewrite Ht.
    + rewrite votes_of_merge_same. simpl.
      rewrite truthy_insert_ne by done. by rewrite Ht'.
    + rewrite !votes_of_merge_same. simpl.
      rewrite !truthy_insert_ne by done. rewrite Ht, Ht'.
      rewrite (insert_insert_ne _ u u') by done.
      by destruct c, d.
  - unfold cast_on. cbv zeta.
    destruct (truthy (default ∅ (votes_of c d)) u) eqn:Ht;
      destruct (truthy (default ∅ (votes_of c' d)) u') eqn:Ht';
      rewrite ?votes_of_merge_other by done; rewrite ?Ht, ?Ht'; try done.
    by destruct c, c', d.
Qed.

Lemma voters_cons a acts postId c :
  voters (a :: acts) postId c =
    (if bool_decide (va_postId a = postId ∧ va_class a = c)
     then from_option singleton ∅ (adding_user (va_session a)) else ∅)
    ∪ voters acts postId c.
Proof.
  unfold voters. simpl.
  destruct (bool_decide _); [|by rewrite (left_id_L ∅ (∪))].
  destruct (adding_user _); simpl; [done|]. by rewrite (left_id_L ∅ (∪)).
Qed.

(** One action on the record under [key]. *)
Lemma apply_action_record (σ : Store) (a : VoteAction) key d :
  σ !! key = Some d →
  ∃ d', apply_action σ a !! key = Some d' ∧
        (∀ c, vote_set (votes_of c d') =
              vote_set (votes_of c d) ∪ voters [a] key c) ∧
        d_id d' = d_id d ∧ d_text d' = d_text d ∧
        d_createdAt d' = d_createdAt d ∧ d_user d' = d_user d.
Proof.
  intros Hd. rewrite apply_action_alter.
  assert (∀ c, voters [a] key c =
               if bool_decide (va_postId a = key ∧ va_class a = c)
               then from_option singleton ∅ (adding_user (va_session a))
               else ∅) as Hv.
  { intros c. rewrite voters_cons. unfold voters. simpl.
    by rewrite (right_id_L ∅ (∪)). }
  unfold adding_user in Hv.
  destruct (acting_user (va_session a)) as [u|] eqn:Hu.
  2:{ exists d. split; [done|]. split; [|done].
      intros c. rewrite Hv. destruct (bool_decide _); simpl;
        by rewrite (right_id_L ∅ (∪)). }
  destruct (decide (va_postId a = key)) as [Hk|Hk].
  - exists (cast_on (va_class a) u d). split.
    { rewrite Hk, lookup_alter, decide_True by done. by rewrite Hd. }
    split; [|apply cast_on_fields].
    intros c. rewrite cast_on_vote_set, Hv.
    destruct (decide (c = va_class a)) as [->|Hc].
    + rewrite bool_decide_eq_true_2 by done.
      destruct (inherited u); simpl; apply (comm_L (∪)).
    + rewrite bool_decide_eq_false_2 by (intros [_ ?]; congruence).
      by rewrite (right_id_L ∅ (∪)).
  - exists d. split.
    { by rewrite lookup_alter, decide_False. }
    split; [|done]. intros c. rewrite Hv.
    rewrite bool_decide_eq_false_2 by (intros [? _]; congruence).
    by rewrite (right_id_L ∅ (∪)).
Qed.

(** A sequence of actions on the record under [key]. *)
Lemma apply_actions_record (acts : list VoteAction) (σ : Store) key d :
  σ !! key = Some d →
  ∃ d', apply_actions σ acts !! key = Some d' ∧
        (∀ c, vote_set (votes_of c d') =
              vote_set (votes_of c d) ∪ voters acts key c) ∧
        d_id d' = d_id d ∧ d_text d' = d_text d ∧
        d_createdAt d' = d_createdAt d ∧ d_user d' = d_user d.
Proof.
  revert σ d. induction acts as [|a acts IH]; intros σ d Hd.
  - exists d. split; [done|]. split; [|done].
    intros c. unfold voters. simpl. by rewrite (right_id_L ∅ (∪)).
  - destruct (apply_action_record σ a key d Hd)
      as (d1 & Hd1 & Hv1 & Hi1 & Ht1 & Hc1 & Hu1).
    destruct (IH _ _ Hd1) as (d2 & Hd2 & Hv2 & Hi2 & Ht2 & Hc2 & Hu2).
    exists d2. split; [done|]. split; [|repeat split; congruence].
    intros c. rewrite Hv2, Hv1, (voters_cons a acts).
    unfold voters at 1. simpl.
    destruct (bool_decide _); [|set_solver].
    destruct (adding_user _); simpl; set_solver.
Qed.

Lemma spread_eligible_iff key d :
  eligible (spread_post key d) = true ↔
  (size (vote_set (d_reports d)) < 3)%nat ∧
  (size (vote_set (d_governanceVotes d)) < 2)%nat.
Proof. by rewrite eligible_iff. Qed.

(** X1. After any sequence of vote actions a stored post is still stored,
    with the id, text, creation time and author it had, and each of its
    vote sets is exactly what it was plus the aliases that voted that class
    on that post. *)
Theorem votes_after_actions
    (σ : Store) (acts : list VoteAction) (key : string) (d : GunData) :
  σ !! key = Some d →
  ∃ d', apply_actions σ acts !! key = Some d' ∧
        vote_set (d_likes d') = vote_set (d_likes d) ∪ voters acts key like ∧
        vote_set (d_reports d') =
          vote_set (d_reports d) ∪ voters acts key report ∧
        vote_set (d_governanceVotes d') =
          vote_set (d_governanceVotes d) ∪ voters acts key governance ∧
        d_id d' = d_id d ∧ d_text d' = d_text d ∧
        d_createdAt d' = d_createdAt d ∧ d_user d' = d_user d.
Proof.
  intros Hd.
  destruct (apply_actions_record acts σ key d Hd) as (d' & Hd' & Hv & Hrest).
  exists d'. split; [done|].
  split; [exact (Hv like)|]. split; [exact (Hv report)|].
  split; [exact (Hv governance)|]. exact Hrest.
Qed.

(** X2. Whether a stored post passes the filter after a sequence of actions
    is decided by counting: fewer than 3 aliases among its reporters, old
    and new, and fewer than 2 among its governance voters. *)
Theorem eligible_after_actions
    (σ : Store) (acts : list VoteAction) (key : string) (d : GunData) :
  σ !! key = Some d →
  ∃ d', apply_actions σ acts !! key = Some d' ∧
        (eligible (spread_post key d') = true ↔
         (size (vote_set (d_reports d) ∪ voters acts key report) < 3)%nat ∧
         (size (vote_set (d_governanceVotes d) ∪ voters acts key governance)
            < 2)%nat).
Proof.
  intros Hd.
  destruct (apply_actions_record acts σ key d Hd) as (d' & Hd' & Hv & _).
  exists d'. split; [done|].
  pose proof (Hv report) as Hr. pose proof (Hv governance) as Hg.
  simpl in Hr, Hg. by rewrite spread_eligible_iff, Hr, Hg.
Qed.

Lemma voters_single_actor acts key c u :
  Forall (λ a, acting_user (va_session a) = Some u ∨
               acting_user (va_session a) = None) acts →
  voters acts key c ⊆ {[u]}.
Proof.
  induction 1 as [|a acts Ha _ IH]; [unfold voters; set_solver|].
  rewrite voters_cons. destruct (bool_decide _); [|set_solver].
  unfold adding_user.
  destruct Ha as [-> | ->]; [destruct (inherited u)|]; simpl; set_solver.
Qed.

(** X3. One user alone cannot hide a post: when every action of a sequence
    is by the same alias (or by a session without an actor), a post that had
    at most one report and no governance vote still passes the filter. *)
Theorem single_actor_cannot_hide
    (σ : Store) (acts : list VoteAction) (key u : string) (d : GunData) :
  σ !! key = Some d →
  (size (vote_set (d_reports d)) ≤ 1)%nat →
  vote_set (d_governanceVotes d) = ∅ →
  Forall (λ a, acting_user (va_session a) = Some u ∨
               acting_user (va_session a) = None) acts →
  ∃ d', apply_actions σ acts !! key = Some d' ∧
        eligible (spread_post key d') = true.
Proof.
  intros Hd Hr Hg Hall.
  destruct (apply_actions_record acts σ key d Hd) as (d' & Hd' & Hv & _).
  exists d'. split; [done|]. apply spread_eligible_iff.
  pose proof (Hv report) as Hvr. pose proof (Hv governance) as Hvg.
  simpl in Hvr, Hvg. rewrite Hvr, Hvg, Hg.
  pose proof (voters_single_actor acts key report u Hall) as Hsr.
  pose proof (voters_single_actor acts key governance u Hall) as Hsg.
  apply subseteq_size in Hsr, Hsg. rewrite size_singleton in Hsr, Hsg.
  pose proof (size_union_alt (vote_set (d_reports d))
                (voters acts key report)) as Hu.
  pose proof (subseteq_size (voters acts key report ∖ vote_set (d_reports d))
                (voters acts key report)) as Hd1.
  rewrite (left_id_L ∅ (∪)).
  split; [|lia]. rewrite Hu.
  assert (size (voters acts key report ∖ vote_set (d_reports d)) ≤ 1)%nat
    by (etrans; [apply Hd1; set_solver | done]).
  lia.
Qed.

Lemma apply_action_comm (σ : Store) (a b : VoteAction) :
  apply_action (apply_action σ a) b = apply_action (apply_action σ b) a.
Proof.
  rewrite !apply_action_alter.
  destruct (acting_user (va_session a)) as [u|];
    destruct (acting_user (va_session b)) as [v|]; try done.
  destruct (decide (va_postId b = va_postId a)) as [Hk|Hk].
  - rewrite Hk, !alter_alter_eq. apply alter_ext. intros d _. simpl.
    apply cast_on_comm.
  - by rewrite alter_alter_ne.
Qed.

(** X4. The store after a list of vote actions does not depend on the order
    of the actions: any rearrangement of the list ends in the same store. *)
Theorem actions_order_irrelevant
    (σ : Store) (acts acts' : list VoteAction) :
  acts ≡ₚ acts' → apply_actions σ acts = apply_actions σ acts'.
Proof.
  intros Hp. revert σ.
  induction Hp as [|a l l' _ IH|a b l|l1 l2 l3 _ IH12 _ IH23]; intros σ.
  - done.
  - simpl. apply IH.
  - simpl. by rewrite apply_action_comm.
  - by rewrite IH12.
Qed.

Lemma cast_on_other c u c' d :
  c' ≠ c → votes_of c' (cast_on c u d) = votes_of c' d.
Proof.
  intros Hc. unfold cast_on. destruct (truthy _); [done|].
  by apply votes_of_merge_other.
Qed.

Lemma store_after_castVote c s postId σ :
  store_after (castVote c s postId) σ =
    match acting_user s with
    | Some u => alter (cast_on c u) postId σ
    | None => σ
    end.
Proof. exact (apply_action_alter σ (mkVoteAction s c postId)). Qed.

Lemma size_add_one (u : string) (S : gset string) :
  Z.of_nat (size ({[u]} ∪ S)) =
    Z.of_nat (size S) + (if decide (u ∈ S) then 0 else 1).
Proof.
  case_decide as Hu.
  - rewrite (subseteq_union_1_L {[u]} S) by by apply singleton_subseteq_l.
    lia.
  - rewrite size_union by by apply disjoint_singleton_l.
    rewrite size_singleton. lia.
Qed.

(** X5. A vote by a resolved actor on a stored post raises the count of its
    class by one when the actor was not yet a key of that vote object and
    the alias does not name a property objects inherit; it leaves the count
    as it was when the actor was a key (also when the key held [false] and
    the handler wrote) and when the alias names an inherited property (the
    handler answers "already voted").  The counts of the other two classes
    do not move. *)
Theorem vote_tally_step
    (c : VoteClass) (s : Session) (u postId : string) (σ : Store) (d : GunData) :
  loggedIn s = true → currentUser s = Some u → σ !! postId = Some d →
  ∃ d', store_after (castVote c s postId) σ !! postId = Some d' ∧
        keys_length (votes_of c d') =
          keys_length (votes_of c d) +
          (if decide (u ∈ vote_set (votes_of c d) ∨ inherited u = true)
           then 0 else 1) ∧
        ∀ c', c' ≠ c → keys_length (votes_of c' d') = keys_length (votes_of c' d).
Proof.
  intros Hl Hu Hd. exists (cast_on c u d).
  rewrite store_after_castVote. unfold acting_user. rewrite Hl, Hu.
  split; [|split].
  - rewrite lookup_alter, decide_True by done. by rewrite Hd.
  - rewrite !keys_length_vote_set, cast_on_vote_set, decide_True by done.
    destruct (inherited u) eqn:Hi.
    + rewrite (left_id_L ∅ (∪)), decide_True by by right. lia.
    + rewrite size_add_one.
      destruct (decide (u ∈ vote_set (votes_of c d))) as [Hin|Hin].
      * by rewrite decide_True by by left.
      * by rewrite decide_False by (intros [?|?]; done).
  - intros c' Hc. by rewrite cast_on_other.
Qed.

(** X6. The third distinct reporter hides a post, and so does the second
    distinct governance voter: when a resolved actor whose alias names no
    inherited property and who is not among the 2 reporters of a stored
    post reports it, or is not among its 1 governance voter and votes, the
    post no longer passes the filter. *)
Theorem threshold_vote_hides
    (s : Session) (u postId : string) (σ : Store) (d : GunData) :
  loggedIn s = true → currentUser s = Some u → inherited u = false →
  σ !! postId = Some d →
  (size (vote_set (d_reports d)) = 2%nat → u ∉ vote_set (d_reports d) →
   ∃ d', store_after (handleReport s postId) σ !! postId = Some d' ∧
         eligible (spread_post postId d') = false) ∧
  (size (vote_set (d_governanceVotes d)) = 1%nat →
   u ∉ vote_set (d_governanceVotes d) →
   ∃ d', store_after (handleGovernanceVote s postId) σ !! postId = Some d' ∧
         eligible (spread_post postId d') = false).
Proof.
  intros Hl Hu Hi Hd.
  assert (∀ c, store_after (castVote c s postId) σ !! postId
               = Some (cast_on c u d)) as Hafter.
  { intros c. rewrite store_after_castVote. unfold acting_user.
    rewrite Hl, Hu, lookup_alter, decide_True by done. by rewrite Hd. }
  split; intros Hsize Hnew.
  - exists (cast_on report u d). split; [exact (Hafter report)|].
    apply not_true_is_false. rewrite spread_eligible_iff.
    pose proof (cast_on_vote_set report u report d) as Hv.
    rewrite decide_True, Hi in Hv by done. simpl in Hv. rewrite Hv.
    pose proof (size_add_one u (vote_set (d_reports d))) as Hs.
    rewrite decide_False in Hs by done. lia.
  - exists (cast_on governance u d). split; [exact (Hafter governance)|].
    apply not_true_is_false. rewrite spread_eligible_iff.
    pose proof (cast_on_vote_set governance u governance d) as Hv.
    rewrite decide_True, Hi in Hv by done. simpl in Hv. rewrite Hv.
    pose proof (size_add_one u (vote_set (d_governanceVotes d))) as Hs.
    rewrite decide_False in Hs by done. lia.
Qed.

(** X7. Likes never hide a post: whatever the session and the target,
    [handleLike] leaves every stored post with the report and governance
    objects it had, so each post passes the filter after it exactly when it
    did before. *)
Theorem like_keeps_visibility
    (s : Session) (postId : string) (σ : Store) (key : string) (d : GunData) :
  σ !! key = Some d →
  ∃ d', store_after (handleLike s postId) σ !! key = Some d' ∧
        d_reports d' = d_reports d ∧
        d_governanceVotes d' = d_governanceVotes d ∧
        eligible (spread_post key d') = eligible (spread_post key d).
Proof.
  intros Hd.
  pose proof (store_after_castVote like s postId σ) as Hst. simpl in Hst.
  rewrite Hst. destruct (acting_user s) as [u|]; [|by exists d].
  destruct (decide (postId = key)) as [->|Hk].
  - exists (cast_on like u d).
    rewrite lookup_alter, decide_True by done. rewrite Hd.
    pose proof (cast_on_other like u report d) as Hr.
    pose proof (cast_on_other like u governance d) as Hg.
    simpl in Hr, Hg. split; [done|].
    unfold eligible. simpl. by rewrite Hr, Hg.
  - exists d. by rewrite lookup_alter, decide_False.
Qed.

(** X8. A vote handler never creates or removes a record and never touches a
    record other than its target: the key set of the store is unchanged,
    every other key maps to what it did, every store access in the trace is
    a read or a write of the target, and there is at most one write. *)
Theorem castVote_touches_only_target
    (c : VoteClass) (s : Session) (postId : string) (σ : Store) :
  dom (store_after (castVote c s postId) σ) = dom σ ∧
  (∀ k, k ≠ postId → store_after (castVote c s postId) σ !! k = σ !! k) ∧
  (∀ e, In e (trace_of (castVote c s postId) σ) → is_store_access e = true →
        e = gun_once postId ∨ ∃ p, e = gun_put postId p) ∧
  (length (List.filter is_store_write (trace_of (castVote c s postId) σ)) ≤ 1)%nat.
Proof.
  split; [|split].
  - rewrite store_after_castVote. destruct (acting_user s); [|done].
    apply dom_alter_L.
  - intros k Hk. rewrite store_after_castVote.
    destruct (acting_user s); [|done]. by rewrite lookup_alter, decide_False.
  - unfold trace_of, run.
    destruct (loggedIn s) eqn:Hl.
    2:{ rewrite castVote_logged_out by done. simpl. split; [|lia].
        intros e [<-|[]]. discriminate. }
    destruct (currentUser s) as [u|] eqn:Hu.
    2:{ rewrite castVote_no_user by done. simpl. split; [|lia]. by intros e []. }
    destruct (σ !! postId) as [d|] eqn:Hd.
    2:{ rewrite (castVote_absent c s u) by done. simpl. split; [|lia].
        intros e [<-|[]] _. by left. }
    destruct (truthy (default ∅ (votes_of c d)) u) eqn:Ht.
    + rewrite (castVote_already c s u postId _ d) by done. simpl.
      split; [|lia]. intros e [<-|[<-|[]]]; [by left | discriminate].
    + rewrite (castVote_votes c s u postId _ d) by done. simpl.
      split.
      * intros e [<-|[<-|Hin]]; [by left | right; eauto |].
        destruct c; simpl in Hin; try done;
          destruct Hin as [<-|[]]; discriminate.
      * destruct c; simpl; lia.
Qed.

(** * Further properties of the feed *)

Lemma map_fixed_In {A} (f : A → A) (l : list A) (x : A) :
  List.map f l = l → In x l → f x = x.
Proof.
  induction l as [|y l IH]; simpl; [done|].
  intros Heq [<-|Hin]; injection Heq as Hy Hl; [done | by apply IH].
Qed.

Lemma snapshot_In posts p :
  In p (snapshot posts) ↔ In p posts ∧ eligible p = true.
Proof.
  unfold snapshot, filterPosts. rewrite <- filter_In.
  pose proof (Array_sort_perm createdAt (List.filter eligible posts)) as Hp.
  split; intros Hin; apply list_elem_of_In; apply list_elem_of_In in Hin.
  - by rewrite <- Hp.
  - by rewrite Hp.
Qed.

(** After an accepted update, the entries under the key are the new post. *)
Lemma onUpdate_entries key d view p :
  has_text (Some d) = true →
  d_id d = None ∨ d_id d = Some key →
  In p (onUpdate key (Some d) view) → id p = key → p = spread_post key d.
Proof.
  intros Hg Hid Hin Hp. apply spread_post_id in Hid.
  destruct (onUpdate_settled key d view Hg Hid) as [_ Hfix].
  pose proof (map_fixed_In _ _ p Hfix Hin) as Hfp. simpl in Hfp.
  by rewrite bool_decide_eq_true_2 in Hfp.
Qed.

Lemma onUpdate_has_entry key d view :
  has_text (Some d) = true →
  d_id d = None ∨ d_id d = Some key →
  In (spread_post key d) (onUpdate key (Some d) view).
Proof.
  intros Hg Hid.
  destruct (onUpdate_settled key d view Hg (spread_post_id key d Hid))
    as [[p0 Hf] _].
  pose proof Hf as Hf'. apply find_some in Hf' as [Hin Hp0].
  apply bool_decide_eq_true in Hp0.
  by rewrite <- (onUpdate_entries key d view p0 Hg Hid Hin Hp0).
Qed.

(** X9. Insert then look up: after an update whose payload has a text and no
    foreign id, searching the view for the key finds the post of that
    payload, whatever the view held under the key before. *)
Theorem onUpdate_then_find
    (view : list PostData) (key : string) (d : GunData) :
  has_text (Some d) = true →
  d_id d = None ∨ d_id d = Some key →
  List.find (λ p, bool_decide (id p = key)) (onUpdate key (Some d) view)
    = Some (spread_post key d).
Proof.
  intros Hg Hid.
  destruct (onUpdate_settled key d view Hg (spread_post_id key d Hid))
    as [[p0 Hf] _].
  rewrite Hf. f_equal.
  apply find_some in Hf as [Hin Hp0]. apply bool_decide_eq_true in Hp0.
  by apply (onUpdate_entries key d view).
Qed.

(** X10. Last write wins: two updates for the same key in a row leave the
    view as the second one alone does; nothing of the first payload stays. *)
Theorem onUpdate_last_write_wins
    (view : list PostData) (key : string) (d1 d2 : GunData) :
  has_text (Some d2) = true →
  d_id d1 = None ∨ d_id d1 = Some key →
  onUpdate key (Some d2) (onUpdate key (Some d1) view)
    = onUpdate key (Some d2) view.
Proof.
  intros Hg2 Hid1.
  destruct (has_text (Some d1)) eqn:Hg1; [|by rewrite (onUpdate_ignored key (Some d1))].
  pose proof (spread_post_id key d1 Hid1) as Hid.
  destruct (onUpdate_settled key d1 view Hg1 Hid) as [[q Hq] _].
  rewrite (onUpdate_replace key d2 _ q Hg2 Hq).
  destruct (List.find (λ p, bool_decide (id p = key)) view) as [p0|] eqn:Hf.
  - rewrite (onUpdate_replace key d1 view p0), (onUpdate_replace key d2 view p0)
      by done.
    rewrite List.map_map. apply map_ext. intros p. cbv beta.
    destruct (bool_decide (id p = key)) eqn:Hp.
    + by rewrite Hid, bool_decide_eq_true_2.
    + by rewrite Hp.
  - rewrite (onUpdate_insert key d1), (onUpdate_insert key d2) by done.
    rewrite List.map_app. cbn [List.map].
    rewrite Hid, bool_decide_eq_true_2 by done. f_equal.
    rewrite <- (List.map_id view) at 2. apply map_ext_in. intros p Hin.
    by rewrite (find_none _ _ Hf p Hin).
Qed.

Lemma onUpdate_ids key d view :
  has_text (Some d) = true →
  d_id d = None ∨ d_id d = Some key →
  List.map id (onUpdate key (Some d) view) =
    if bool_decide (key ∈ List.map id view)
    then List.map id view else List.map id view ++ [key].
Proof.
  intros Hg Hid. apply spread_post_id in Hid.
  destruct (List.find (λ p, bool_decide (id p = key)) view) as [p0|] eqn:Hf.
  - rewrite (onUpdate_replace key d view p0) by done.
    apply find_some in Hf as [Hin Hp0]. apply bool_decide_eq_true in Hp0.
    rewrite bool_decide_eq_true_2
      by (apply list_elem_of_In, in_map_iff; eauto).
    rewrite List.map_map. apply map_ext. intros p.
    destruct (bool_decide (id p = key)) eqn:Hp; [|done].
    apply bool_decide_eq_true in Hp. congruence.
  - rewrite onUpdate_insert by done.
    rewrite bool_decide_eq_false_2.
    + rewrite List.map_app. cbn [List.map]. by rewrite Hid.
    + intros Hin. apply list_elem_of_In, in_map_iff in Hin as (p & Hp & Hin).
      pose proof (find_none _ _ Hf p Hin) as Hn. simpl in Hn.
      by rewrite bool_decide_eq_true_2 in Hn.
Qed.

(** X11. At most one entry per identifier: as long as no payload carries a
    foreign id, updates keep the ids of the view free of duplicates; so a
    view built from the empty one has each id once. *)
Theorem view_ids_unique
    (evs : list (string * option GunData)) (view : list PostData) :
  Forall (λ ev, ∀ d, ev.2 = Some d → d_id d = None ∨ d_id d = Some ev.1) evs →
  NoDup (List.map id view) →
  NoDup (List.map id (apply_events evs view)).
Proof.
  intros Hall. revert view.
  induction Hall as [|[key data] evs Hev _ IH]; intros view Hnd; [done|].
  simpl. apply IH. simpl in Hev.
  destruct (has_text data) eqn:Hg; [|by rewrite onUpdate_ignored].
  destruct data as [d|]; [|done].
  rewrite onUpdate_ids by auto.
  case_bool_decide as Hin; [done|].
  apply NoDup_app. split; [done|]. split; [|apply NoDup_singleton].
  intros k Hk Hk'. apply list_elem_of_singleton in Hk'. by subst k.
Qed.

(** X12. No removal: an update never shortens the view, adds at most one
    entry, and leaves every entry stored under another id where it is. *)
Theorem onUpdate_keeps_others
    (view : list PostData) (key : string) (data : option GunData) :
  (length view ≤ length (onUpdate key data view) ≤ S (length view))%nat ∧
  ∀ (i : nat) (p : PostData),
    view !! i = Some p → id p ≠ key → onUpdate key data view !! i = Some p.
Proof.
  unfold onUpdate. destruct data as [d|]; [|split; [lia | done]].
  destruct (has_text (Some d)); [|split; [lia | done]].
  destruct (List.find _ view) as [p0|].
  - split; [rewrite length_map; lia|].
    intros i p Hi Hp. revert i Hi.
    induction view as [|q view IH]; intros [|i] Hi; simpl in *; try done.
    + injection Hi as ->. by rewrite bool_decide_eq_false_2.
    + by apply IH.
  - split; [rewrite length_app; simpl; lia|].
    intros i p Hi _. by apply lookup_app_l_Some.
Qed.

(** X13. Soft deletion: when an update brings a payload that fails the
    filter, its post stays in the view but no entry under that key is in the
    rendered list any more. *)
Theorem onUpdate_over_threshold_hidden
    (view : list PostData) (key : string) (d : GunData) :
  has_text (Some d) = true →
  d_id d = None ∨ d_id d = Some key →
  eligible (spread_post key d) = false →
  In (spread_post key d) (onUpdate key (Some d) view) ∧
  ∀ p, In p (snapshot (onUpdate key (Some d) view)) → id p ≠ key.
Proof.
  intros Hg Hid Hbad. split; [by apply onUpdate_has_entry|].
  intros p Hin Hp. apply snapshot_In in Hin as [Hin Hel].
  rewrite (onUpdate_entries key d view p Hg Hid Hin Hp) in Hel. congruence.
Qed.

Lemma Array_sort_sorted_id {A} (key : A → Z) (l : list A) :
  StronglySorted (λ a b, key b ≤ key a) l →
  Array_sort (λ a b, key b - key a) l = l.
Proof.
  induction 1 as [|x l Hs IH Hx]; [done|].
  unfold Array_sort in *. simpl. rewrite IH.
  destruct l as [|y l]; [done|]. simpl.
  apply Forall_inv in Hx.
  destruct (Z.leb_spec (key y - key x) 0); [done | lia].
Qed.

Lemma filter_all_true {A} (f : A → bool) (l : list A) :
  (∀ x, In x l → f x = true) → List.filter f l = l.
Proof.
  induction l as [|x l IH]; intros Hall; simpl; [done|].
  rewrite (Hall x) by by left. f_equal. apply IH. intros y Hy.
  apply Hall. by right.
Qed.

(** X14. Rendering is stable under itself: filtering and sorting the
    rendered list again gives the same list. *)
Theorem snapshot_idempotent (posts : list PostData) :
  snapshot (snapshot posts) = snapshot posts.
Proof.
  unfold snapshot at 1.
  assert (filterPosts (snapshot posts) = snapshot posts) as ->.
  { apply filter_all_true. intros p Hin. by apply snapshot_In in Hin as [_ ?]. }
  apply (Array_sort_sorted_id createdAt).
  apply (Array_sort_sorted createdAt).
Qed.

Lemma keys_length_nonneg (o : option Votes) : 0 ≤ keys_length o.
Proof. rewrite keys_length_vote_set. lia. Qed.

(** X15. What the rendered cards can show: one card per post that passes
    the filter, each with a report count of 0, 1 or 2, a governance count
    of 0 or 1, a like count that is not negative, and an author label that
    is never empty (a missing or empty author shows as the anonymous
    label). *)
Theorem render_feed_counts (posts : list PostData) :
  length (render_feed posts) = length (filterPosts posts) ∧
  ∀ card, In card (render_feed posts) →
    0 ≤ card_reportCount card ≤ 2 ∧
    0 ≤ card_governanceCount card ≤ 1 ∧
    0 ≤ card_likeCount card ∧
    card_author card ≠ "".
Proof.
  split.
  - unfold render_feed, snapshot. rewrite length_map.
    apply Permutation_length, (Array_sort_perm createdAt).
  - intros card Hin. unfold render_feed in Hin.
    apply in_map_iff in Hin as (p & <- & Hp).
    apply snapshot_In in Hp as [_ Hel].
    unfold eligible, REPORT_THRESHOLD, GOVERNANCE_THRESHOLD in Hel.
    apply andb_true_iff in Hel as [Hr Hg]. apply Z.ltb_lt in Hr, Hg.
    pose proof (keys_length_nonneg (reports p)).
    pose proof (keys_length_nonneg (governanceVotes p)).
    pose proof (keys_length_nonneg (likes p)).
    simpl. repeat split; try lia.
    unfold author_label. destruct (user p) as [u|]; [|done].
    case_bool_decide; done.
Qed.

(** * Further properties of post submission *)

Section SubmissionProperties.
Context (trim DOMPurify_sanitize : string → string)
        (script_regex_test : string → bool) (new_soul : Store → string).

Local Abbreviation submit :=
  (handlePost trim DOMPurify_sanitize script_regex_test new_soul).

(** The full run of [handlePost], branch by branch. *)
Lemma handlePost_cases s input now ack_err σ :
  let t := DOMPurify_sanitize (trim input) in
  run (submit s input now ack_err) σ =
    if negb (loggedIn s) then
      (Normal tt, mkWorld σ [toast warn "ログインしてください。"])
    else if Z.of_nat (String.length (trim input)) <? 3 then
      (Normal tt, mkWorld σ [toast error "投稿は最低 3 文字以上必要です。"])
    else if script_regex_test t then
      (Normal tt, mkWorld σ [toast error "不正な入力が含まれています。"])
    else if bool_decide (t = "") then (Normal tt, mkWorld σ [])
    else if err_truthy ack_err then
      (Normal tt,
       mkWorld σ [gun_set (new_post s t now); setInput "";
                  toast error "投稿に失敗しました。"])
    else
      (Normal tt,
       mkWorld (<[new_soul σ := new_post s t now]> σ)
         [gun_set (new_post s t now); setInput "";
          toast success "投稿完了！"; console_log_minted now]).
Proof.
  intros t. subst t.
  unfold run, handlePost, validateAndSanitizeInput.
  cbv [bind ret emit posts_set].
  destruct (loggedIn s); simpl; [|done].
  destruct (Z.of_nat (String.length (trim input)) <? 3); simpl; [done|].
  destruct (script_regex_test (DOMPurify_sanitize (trim input)));
    simpl; [done|].
  destruct (bool_decide (DOMPurify_sanitize (trim input) = ""));
    simpl; [done|].
  by destruct (err_truthy ack_err).
Qed.
End SubmissionProperties.

(** X16. A rejected submission keeps the text box and the store as they
    are: when the user is not logged in, or the trimmed text has fewer than
    3 characters, or the script pattern matches the sanitized text, or the
    sanitized text is empty, [handlePost] makes no store access and does not
    clear the input.  The first three cases show one toast (a warning, then
    errors); an input that sanitizes to the empty text is dropped without
    any message. *)
Theorem handlePost_rejected
    (trim DOMPurify_sanitize : string → string)
    (script_regex_test : string → bool) (new_soul : Store → string)
    (s : Session) (input : string) (now : Z) (ack_err : option string)
    (σ : Store) :
  let r := run (handlePost trim DOMPurify_sanitize script_regex_test new_soul
                  s input now ack_err) σ in
  let t := DOMPurify_sanitize (trim input) in
  loggedIn s = false ∨
  (String.length (trim input) < 3)%nat ∨
  script_regex_test t = true ∨
  t = "" →
  r.1 = Normal tt ∧ gun_posts r.2 = σ ∧
  Forall (λ e, is_store_access e = false ∧ e ≠ setInput "") (trace r.2) ∧
  (length (trace r.2) ≤ 1)%nat ∧
  (loggedIn s = true → (3 ≤ String.length (trim input))%nat →
   script_regex_test t = false → trace r.2 = []).
Proof.
  intros r t Hcase. subst r.
  rewrite handlePost_cases. fold t.
  destruct (loggedIn s) eqn:Hl; simpl.
  2:{ repeat split; first [done | by repeat constructor | simpl; lia]. }
  destruct (Z.ltb_spec (Z.of_nat (String.length (trim input))) 3) as [Hlt|Hge].
  { repeat split; first [done | by repeat constructor | simpl; lia | lia]. }
  destruct (script_regex_test t) eqn:Hs.
  { repeat split; first [done | by repeat constructor | simpl; lia]. }
  destruct Hcase as [?|[?|[?|Ht]]]; [done | lia | done |].
  rewrite bool_decide_eq_true_2 by done.
  repeat split; first [done | simpl; lia].
Qed.

(** X17. An accepted submission hands [set] one post whose text is the
    sanitized, trimmed input and whose author is the resolved alias or
    "unknown", and clears the text box right after, whatever the store
    answers.  When the acknowledgement's [err] is truthy the error toast
    follows and no token is logged; otherwise (no [err], or an empty one)
    the success toast and the token log follow. *)
Theorem handlePost_accepted
    (trim DOMPurify_sanitize : string → string)
    (script_regex_test : string → bool) (new_soul : Store → string)
    (s : Session) (input : string) (now : Z) (ack_err : option string)
    (σ : Store) :
  let tr := trace_of (handlePost trim DOMPurify_sanitize script_regex_test
                        new_soul s input now ack_err) σ in
  let t := DOMPurify_sanitize (trim input) in
  loggedIn s = true →
  (3 ≤ String.length (trim input))%nat →
  script_regex_test t = false →
  t ≠ "" →
  ∃ post,
    tr = gun_set post :: setInput "" ::
         (if err_truthy ack_err
          then [toast error "投稿に失敗しました。"]
          else [toast success "投稿完了！"; console_log_minted now]) ∧
    d_text post = Some t ∧ d_createdAt post = now ∧
    d_user post = Some (default "unknown" (currentUser s)) ∧
    d_user post ≠ Some "".
Proof.
  intros tr t Hl Hlen Hs Ht. subst tr. unfold trace_of.
  rewrite handlePost_cases. fold t. rewrite Hl, Hs. simpl.
  rewrite (proj2 (Z.ltb_ge _ _)) by lia.
  rewrite bool_decide_eq_false_2 by done.
  assert (d_user (new_post s t now) ≠ Some "") as Hu.
  { simpl. unfold currentUser. destruct (gunUser_is s) as [a|]; [|done].
    case_bool_decide; simpl; congruence. }
  exists (new_post s t now).
  destruct (err_truthy ack_err); simpl; by repeat split.
Qed.

(** X18. From submission to the feed: any post [handlePost] hands to the
    store, once delivered to a view under any key, is in the rendered
    list of that view. *)
Theorem submitted_post_is_rendered
    (trim DOMPurify_sanitize : string → string)
    (script_regex_test : string → bool) (new_soul : Store → string)
    (s : Session) (input : string) (now : Z) (ack_err : option string)
    (σ : Store) (post : GunData) (key : string) (view : list PostData) :
  In (gun_set post)
     (trace_of (handlePost trim DOMPurify_sanitize script_regex_test new_soul
                  s input now ack_err) σ) →
  In (spread_post key post) (snapshot (onUpdate key (Some post) view)).
Proof.
  intros Hin. unfold trace_of in Hin. rewrite handlePost_cases in Hin.
  destruct (negb (loggedIn s)); [by destruct Hin as [?|[]]|].
  destruct (_ <? 3); [by destruct Hin as [?|[]]|].
  destruct (script_regex_test _); [by destruct Hin as [?|[]]|].
  case_bool_decide as Ht; [by destruct Hin|].
  assert (post = new_post s (DOMPurify_sanitize (trim input)) now) as ->.
  { destruct (err_truthy ack_err); simpl in Hin;
      destruct Hin as [Heq|[?|[?|Hin]]]; try done;
      try (by injection Heq); by destruct Hin. }
  apply snapshot_In. split.
  - apply onUpdate_has_entry; [|by left].
    simpl. by rewrite bool_decide_eq_false_2.
  - done.
Qed.

(** * Properties of sign-up and login *)

(** X19. Without both a user name and a password neither handler calls the
    identity provider: it shows the warning and leaves the state as it is.
    Signing up never logs in, whatever the provider answers. *)
Theorem auth_needs_credentials
    (jwt_sign : string → string → string → string)
    (st : AuthState) (ack_err : option string) :
  (st_alias st = "" ∨ st_password st = "" →
   handleSignUp st ack_err =
     (st, [auth_toast warn "ユーザー名とパスワードを入力してください。"]) ∧
   handleLogin jwt_sign st ack_err =
     (st, [auth_toast warn "ユーザー名とパスワードを入力してください。"])) ∧
  (handleSignUp st ack_err).1 = st.
Proof.
  split.
  - intros Hempty.
    assert (has_credentials st = false) as Hc.
    { unfold has_credentials.
      destruct Hempty as [-> | ->]; simpl; [done|]. apply andb_false_r. }
    unfold handleSignUp, handleLogin. by rewrite Hc.
  - unfold handleSignUp. by destruct (has_credentials st).
Qed.

(** X20. The logged-in flag is set only by a login the provider accepts:
    after [handleLogin] the flag is on exactly when it was on before or
    both credentials were given and the acknowledgement carried no error;
    in the second case the token is the one signed for the alias with the
    secret and a one hour expiry, otherwise the state is as it was. *)
Theorem login_sets_flag_on_success
    (jwt_sign : string → string → string → string)
    (st : AuthState) (ack_err : option string) :
  let st' := (handleLogin jwt_sign st ack_err).1 in
  let accepted :=
    st_alias st ≠ "" ∧ st_password st ≠ "" ∧ err_truthy ack_err = false in
  (st_loggedIn st' = true ↔ st_loggedIn st = true ∨ accepted) ∧
  (accepted →
     st' = mkAuthState (st_alias st) (st_password st) true
             (jwt_sign (st_alias st) "SUPER_SECRET_KEY_FOR_DEMO_ONLY" "1h") ∧
     In (gunUser_auth (st_alias st) (st_password st))
        (handleLogin jwt_sign st ack_err).2) ∧
  (¬ accepted → st' = st).
Proof.
  intros st' accepted. subst st' accepted.
  unfold handleLogin, has_credentials, generateJWT, JWT_SECRET.
  destruct (bool_decide_reflect (st_alias st = "")) as [Ha|Ha];
    destruct (bool_decide_reflect (st_password st = "")) as [Hp|Hp];
    simpl; try (split; [|split]; [tauto | tauto | done]).
  destruct (err_truthy ack_err) eqn:He; simpl.
  - split; [|split]; [| |done].
    + split; [tauto|]. intros [?|(_ & _ & ?)]; done.
    + intros (_ & _ & ?). done.
  - split; [|split]; [tauto | | tauto].
    intros _. split; [done|]. by left.
Qed.

(** * The further properties at concrete inputs *)

Lemma votes_after_actions_witness :
  ∃ d', apply_actions reported_store later_actions !! "p2" = Some d' ∧
        vote_set (d_likes d') =
          vote_set (d_likes reported_record) ∪ voters later_actions "p2" like ∧
        vote_set (d_reports d') =
          vote_set (d_reports reported_record)
          ∪ voters later_actions "p2" report ∧
        vote_set (d_governanceVotes d') =
          vote_set (d_governanceVotes reported_record)
          ∪ voters later_actions "p2" governance ∧
        d_id d' = d_id reported_record ∧ d_text d' = d_text reported_record ∧
        d_createdAt d' = d_createdAt reported_record ∧
        d_user d' = d_user reported_record.
Proof.
  apply (votes_after_actions reported_store later_actions "p2" reported_record).
  reflexivity.
Defined.

Lemma eligible_after_actions_witness :
  ∃ d', apply_actions hello_store alice_alone !! "p1" = Some d' ∧
        (eligible (spread_post "p1" d') = true ↔
         (size (vote_set (d_reports hello_record)
                ∪ voters alice_alone "p1" report) < 3)%nat ∧
         (size (vote_set (d_governanceVotes hello_record)
                ∪ voters alice_alone "p1" governance) < 2)%nat).
Proof.
  apply (eligible_after_actions hello_store alice_alone "p1" hello_record).
  reflexivity.
Defined.

Lemma single_actor_cannot_hide_witness :
  ∃ d', apply_actions hello_store alice_alone !! "p1" = Some d' ∧
        eligible (spread_post "p1" d') = true.
Proof.
  apply (single_actor_cannot_hide hello_store alice_alone "p1" "alice"
           hello_record).
  - reflexivity.
  - vm_compute. lia.
  - reflexivity.
  - repeat constructor; (by left) || (by right).
Defined.

Lemma actions_order_irrelevant_witness :
  apply_actions hello_store
    [mkVoteAction alice report "p1"; mkVoteAction bob report "p1"]
  = apply_actions hello_store
      [mkVoteAction bob report "p1"; mkVoteAction alice report "p1"].
Proof.
  apply (actions_order_irrelevant hello_store). apply Permutation_swap.
Defined.

Lemma vote_tally_step_witness :
  ∃ d', store_after (castVote like alice "p1") hello_store !! "p1" = Some d' ∧
        keys_length (votes_of like d') =
          keys_length (votes_of like hello_record) +
          (if decide ("alice" ∈ vote_set (votes_of like hello_record))
           then 0 else 1) ∧
        ∀ c', c' ≠ like →
              keys_length (votes_of c' d') = keys_length (votes_of c' hello_record).
Proof.
  apply (vote_tally_step like alice "alice" "p1" hello_store hello_record);
    reflexivity.
Defined.

Lemma threshold_vote_hides_witness :
  (∃ d', store_after (handleReport carol "p3") two_reports_store !! "p3"
           = Some d' ∧
         eligible (spread_post "p3" d') = false) ∧
  eligible (spread_post "p3" two_reports_record) = true.
Proof.
  split; [|reflexivity].
  destruct (threshold_vote_hides carol "carol" "p3" two_reports_store
              two_reports_record) as [Href _]; try reflexivity.
  apply Href; [reflexivity|]. vm_compute. intros H. discriminate H.
Defined.

Lemma like_keeps_visibility_witness :
  ∃ d', store_after (handleLike alice "p1") hello_store !! "p1" = Some d' ∧
        d_reports d' = d_reports hello_record ∧
        d_governanceVotes d' = d_governanceVotes hello_record ∧
        eligible (spread_post "p1" d') = eligible (spread_post "p1" hello_record).
Proof.
  apply (like_keeps_visibility alice "p1" hello_store "p1" hello_record).
  reflexivity.
Defined.

Lemma onUpdate_then_find_witness :
  List.find (λ p, bool_decide (id p = "p1"))
    (onUpdate "p1" (Some hello_record) [post_at "p1" 1; post_at "a" 100])
    = Some (spread_post "p1" hello_record).
Proof.
  apply (onUpdate_then_find [post_at "p1" 1; post_at "a" 100] "p1" hello_record).
  - reflexivity.
  - left. reflexivity.
Defined.

Lemma onUpdate_last_write_wins_witness :
  onUpdate "p1" (Some reported_record)
    (onUpdate "p1" (Some hello_record) [post_at "a" 100])
  = onUpdate "p1" (Some reported_record) [post_at "a" 100].
Proof.
  apply (onUpdate_last_write_wins [post_at "a" 100] "p1" hello_record
           reported_record).
  - reflexivity.
  - left. reflexivity.
Defined.

Lemma view_ids_unique_witness :
  NoDup (List.map id (apply_events sample_events [])).
Proof.
  apply (view_ids_unique sample_events []).
  - unfold sample_events.
    repeat (apply List.Forall_cons;
            [simpl; intros d Hd; try discriminate Hd;
             injection Hd as <-; left; reflexivity|]).
    apply List.Forall_nil.
  - constructor.
Defined.

Lemma onUpdate_over_threshold_hidden_witness :
  In (spread_post "p2" reported_record)
     (onUpdate "p2" (Some reported_record) [post_at "p2" 7]) ∧
  ∀ p, In p (snapshot (onUpdate "p2" (Some reported_record) [post_at "p2" 7])) →
       id p ≠ "p2".
Proof.
  apply (onUpdate_over_threshold_hidden [post_at "p2" 7] "p2" reported_record).
  - reflexivity.
  - left. reflexivity.
  - reflexivity.
Defined.

Lemma handlePost_rejected_witness :
  (run (handlePost (λ x, x) (λ x, x) no_script sample_soul
          alice "hi" 5 None) hello_store).1 = Normal tt ∧
  gun_posts (run (handlePost (λ x, x) (λ x, x) no_script sample_soul
                    alice "hi" 5 None) hello_store).2 = hello_store ∧
  Forall (λ e, is_store_access e = false ∧ e ≠ setInput "")
    (trace (run (handlePost (λ x, x) (λ x, x) no_script sample_soul
                   alice "hi" 5 None) hello_store).2).
Proof.
  destruct (handlePost_rejected (λ x, x) (λ x, x) no_script sample_soul
              alice "hi" 5 None hello_store) as (Hc & Hs & Ht & _).
  - right. left. simpl. lia.
  - exact (conj Hc (conj Hs Ht)).
Defined.

Lemma handlePost_accepted_witness :
  ∃ post,
    trace_of (handlePost (λ x, x) (λ x, x) no_script sample_soul
                alice "hello" 5 (Some "")) hello_store
      = gun_set post :: setInput "" ::
        (if err_truthy (Some "")
         then [toast error "投稿に失敗しました。"]
         else [toast success "投稿完了！"; console_log_minted 5]) ∧
    d_text post = Some "hello" ∧ d_createdAt post = 5 ∧
    d_user post = Some (default "unknown" (currentUser alice)) ∧
    d_user post ≠ Some "".
Proof.
  apply (handlePost_accepted (λ x, x) (λ x, x) no_script sample_soul
           alice "hello" 5 (Some "") hello_store).
  - reflexivity.
  - simpl. lia.
  - reflexivity.
  - discriminate.
Defined.

Lemma submitted_post_is_rendered_witness :
  In (spread_post "soul1" (new_post alice "hello" 5))
     (snapshot (onUpdate "soul1" (Some (new_post alice "hello" 5))
                  [post_at "a" 100])).
Proof.
  apply (submitted_post_is_rendered (λ x, x) (λ x, x) no_script sample_soul
           alice "hello" 5 None hello_store).
  left. reflexivity.
Defined.

(** * An alias that names an inherited property *)

(** X22. A user whose alias names a property every object inherits
    ("constructor", "toString", ...) cannot vote: on a stored post whose
    vote object of the class has no own key of that name, the handler reads
    once, writes nothing, leaves the store as it is and shows the "already
    voted" toast. *)
Theorem inherited_alias_never_votes
    (c : VoteClass) (s : Session) (u postId : string) (σ : Store) (d : GunData) :
  loggedIn s = true → currentUser s = Some u → inherited u = true →
  σ !! postId = Some d → u ∉ vote_set (votes_of c d) →
  run (castVote c s postId) σ =
    (Normal tt, mkWorld σ [gun_once postId; toast info (already_voted_msg c)]).
Proof.
  intros Hl Hu Hi Hd Hnew. unfold run.
  rewrite (castVote_already c s u postId _ d); [done..|].
  unfold truthy. rewrite <- vote_set_default in Hnew.
  apply not_elem_of_dom in Hnew. by rewrite Hnew.
Qed.

Lemma inherited_alias_never_votes_witness :
  run (castVote report constructor_session "p1") hello_store =
    (Normal tt,
     mkWorld hello_store
       [gun_once "p1"; toast info (already_voted_msg report)]).
Proof.
  apply (inherited_alias_never_votes report constructor_session "constructor"
           "p1" hello_store hello_record); try reflexivity.
  vm_compute. intros H. discriminate H.
Defined.
